(** * FRA_VISION: the layout-aware field-extraction engine of
      [AI/digitalizer/super_pipeline.py]

    A shallow embedding of the extraction stage (line grouping, anchors,
    sanitizers, checkbox and yes/no resolution, cross-page merge) and the
    properties of the specification that are stated about it.

    Modelling conventions.
    - Python [str] is [list ascii].  Text is 7-bit ASCII: on such text the
      Unicode-only steps of [normalize] (Devanagari digit translation, NFKC,
      folding of typographic dashes and quotes, removal of zero-width
      characters) are the identity.  Codes 128..255 of [ascii] stand for no
      character of the source; they are neither whitespace nor word
      characters and lower-casing leaves them alone.
    - Python [int] is [Z].  [int(x)] on a float truncates toward zero; the
      floats met on the modelled paths are halves or small multiples of
      integers, so [int(0.5*n)] is [Z.quot n 2] and so on.
    - [re] patterns are terms of [Re.re], matched by a backtracking matcher
      with Python's priorities (leftmost start, alternatives in order, greedy
      repetition).
    - dictionaries with a fixed key set are records; the per-page and merged
      field dictionaries are functions from the key to a dynamically typed
      [value]. *)

From Stdlib Require Import Ascii String ZArith QArith Bool Lia Arith.
From Stdlib Require Import List Permutation Sorted.
Import ListNotations.

Local Open Scope Z_scope.

(* ================================================================== *)
(** * Part I.  The model                                               *)
(* ================================================================== *)

(** ** Text *)

Module Text.

Definition str := list ascii.

(** String literals of the source. *)
Definition lit (s : string) : str := list_ascii_of_string s.

Definition code (c : ascii) : N := N_of_ascii c.

Definition in_range (lo hi : N) (c : ascii) : bool :=
  (N.leb lo (code c) && N.leb (code c) hi)%bool.

(** [str.isspace] on ASCII: TAB..CR, FS..US and the space.  [str.strip],
    [str.split] and the pattern escape [\s] all use it. *)
Definition is_space (c : ascii) : bool :=
  (in_range 9 13 c || in_range 28 32 c)%bool.

Definition is_digit (c : ascii) : bool := in_range 48 57 c.
Definition is_upper (c : ascii) : bool := in_range 65 90 c.
Definition is_lower (c : ascii) : bool := in_range 97 122 c.

(** The pattern escape [\w] on ASCII: letters, digits and the underscore. *)
Definition is_word (c : ascii) : bool :=
  (is_digit c || is_upper c || is_lower c || N.eqb (code c) 95)%bool.

Definition lower_char (c : ascii) : ascii :=
  if is_upper c then ascii_of_N (code c + 32) else c.

Definition upper_char (c : ascii) : ascii :=
  if is_lower c then ascii_of_N (code c - 32) else c.

(** [s.lower()] *)
Definition lower (s : str) : str := map lower_char s.

Definition eqc (a b : ascii) : bool := Ascii.eqb a b.

Fixpoint str_eqb (a b : str) : bool :=
  match a, b with
  | [], [] => true
  | x :: a', y :: b' => (eqc x y && str_eqb a' b')%bool
  | _, _ => false
  end.

(** [s.lstrip()] *)
Fixpoint lstrip (s : str) : str :=
  match s with
  | c :: s' => if is_space c then lstrip s' else s
  | [] => []
  end.

(** [s.rstrip()] *)
Definition rstrip (s : str) : str := rev (lstrip (rev s)).

(** [s.strip()] *)
Definition strip (s : str) : str := rstrip (lstrip s).

(** [s.split()]: the maximal runs of non-whitespace characters.  [cur] is
    the run being read, reversed. *)
Fixpoint split_ws_aux (cur : str) (s : str) : list str :=
  match s with
  | [] => match cur with [] => [] | _ => [rev cur] end
  | c :: s' =>
      if is_space c
      then match cur with
           | [] => split_ws_aux [] s'
           | _ => rev cur :: split_ws_aux [] s'
           end
      else split_ws_aux (c :: cur) s'
  end.

Definition split_ws (s : str) : list str := split_ws_aux [] s.

(** [sep.join(parts)] *)
Fixpoint join (sep : str) (parts : list str) : str :=
  match parts with
  | [] => []
  | [p] => p
  | p :: ps => p ++ sep ++ join sep ps
  end.

Fixpoint starts_with (p s : str) : bool :=
  match p, s with
  | [], _ => true
  | x :: p', y :: s' => (eqc x y && starts_with p' s')%bool
  | _ :: _, [] => false
  end.

(** [needle in s] on strings: substring test. *)
Fixpoint contains (needle s : str) : bool :=
  match s with
  | [] => starts_with needle []
  | _ :: s' => (starts_with needle s || contains needle s')%bool
  end.

(** [s.replace(a, b)] for a single character [a]. *)
Definition replace_char (a b : ascii) (s : str) : str :=
  map (fun c => if eqc c a then b else c) s.

End Text.

Import Text.

(** ** Regular expressions ([re]) *)

Module Re.

(** The fragment of the pattern language that the modelled functions use.
    Repetition is over a single character class, which is all the source
    patterns repeat. *)
Inductive re : Type :=
| Eps                                (* the empty pattern *)
| Lit (c : ascii)                    (* a literal character *)
| Cls (p : ascii -> bool)            (* a class: [\s], [\d], [[...]] *)
| Cat (r1 r2 : re)                   (* r1 r2 *)
| Alt (r1 r2 : re)                   (* r1|r2 *)
| Opt (r : re)                       (* r? (greedy) *)
| Star (p : ascii -> bool)           (* [...]* (greedy) *)
| Wb                                 (* \b *)
| Eos                                (* $ *)
| Grp (n : nat) (r : re).            (* the n-th capturing group *)

(** A position in the subject is a zipper: the text before it, reversed, and
    the text from it on. *)
Definition is_word_hd (s : str) : bool :=
  match s with c :: _ => is_word c | [] => false end.

(** What a successful match returns: the position where it ends and the
    groups captured on the way. *)
Record mstate : Type := MState {
  m_before : str;             (* reversed text before the end of the match *)
  m_after  : str;             (* text after the match *)
  m_groups : list (nat * str)
}.

Definition kont := str -> str -> option mstate.

Definition add_group (n : nat) (g : str) (m : option mstate) : option mstate :=
  match m with
  | Some st => Some (MState (m_before st) (m_after st) ((n, g) :: m_groups st))
  | None => None
  end.

(** Character tests; [ic] is the [re.I] flag. *)
Definition chr_test (ic : bool) (c x : ascii) : bool :=
  if ic then eqc (lower_char c) (lower_char x) else eqc c x.

Definition cls_test (ic : bool) (p : ascii -> bool) (x : ascii) : bool :=
  if ic then (p x || p (lower_char x) || p (upper_char x))%bool else p x.

(** Greedy [[...]*]: take one more character first, give it back on
    failure. *)
Fixpoint star_c (test : ascii -> bool) (k : kont) (b u : str) : option mstate :=
  match u with
  | x :: u' =>
      if test x
      then match star_c test k (x :: b) u' with
           | Some m => Some m
           | None => k b u
           end
      else k b u
  | [] => k b u
  end.

(** The backtracking matcher, in continuation-passing style: [rmatch ic r b
    u k] matches [r] at position [(b, u)] and hands the end position to [k];
    the first alternative whose continuation succeeds wins. *)
Fixpoint rmatch (ic : bool) (r : re) (b u : str) (k : kont) : option mstate :=
  match r with
  | Eps => k b u
  | Lit c =>
      match u with
      | x :: u' => if chr_test ic c x then k (x :: b) u' else None
      | [] => None
      end
  | Cls p =>
      match u with
      | x :: u' => if cls_test ic p x then k (x :: b) u' else None
      | [] => None
      end
  | Cat r1 r2 => rmatch ic r1 b u (fun b' u' => rmatch ic r2 b' u' k)
  | Alt r1 r2 =>
      match rmatch ic r1 b u k with
      | Some m => Some m
      | None => rmatch ic r2 b u k
      end
  | Opt r1 =>
      match rmatch ic r1 b u k with
      | Some m => Some m
      | None => k b u
      end
  | Star p => star_c (cls_test ic p) k b u
  | Wb => if xorb (is_word_hd b) (is_word_hd u) then k b u else None
  | Eos =>
      match u with
      | [] => k b u
      | [x] => if eqc x "010"%char then k b u else None
      | _ => None
      end
  | Grp n r1 =>
      rmatch ic r1 b u
        (fun b' u' => add_group n (firstn (length u - length u') u) (k b' u'))
  end.

Definition k_end : kont := fun b u => Some (MState b u []).

(** [pattern.match] at one position. *)
Definition match_at (ic : bool) (r : re) (b u : str) : option mstate :=
  rmatch ic r b u k_end.

(** A match object: where the match starts and what [match_at] returned. *)
Record rmatch_obj : Type := MObj {
  mo_start_before : str;    (* reversed text before the start of the match *)
  mo_start_after  : str;    (* text from the start of the match *)
  mo_end : mstate
}.

(** [pattern.search] from position [(b, u)]: the leftmost position with a
    match. *)
Fixpoint search_from (ic : bool) (r : re) (b u : str) : option rmatch_obj :=
  match match_at ic r b u with
  | Some m => Some (MObj b u m)
  | None =>
      match u with
      | [] => None
      | x :: u' => search_from ic r (x :: b) u'
      end
  end.

(** [re.search(r, s)] *)
Definition search (ic : bool) (r : re) (s : str) : option rmatch_obj :=
  search_from ic r [] s.

(** [m.group(0)] *)
Definition matched (m : rmatch_obj) : str :=
  firstn (length (mo_start_after m) - length (m_after (mo_end m)))
         (mo_start_after m).

(** [m.group(n)], the empty string standing for a group that took no part. *)
Fixpoint lookup_group (n : nat) (gs : list (nat * str)) : str :=
  match gs with
  | [] => []
  | (i, g) :: gs' => if Nat.eqb i n then g else lookup_group n gs'
  end.

Definition group (n : nat) (m : rmatch_obj) : str :=
  lookup_group n (m_groups (mo_end m)).

(** The text of the subject before the start of the match: [s[:m.start()]]. *)
Definition before (m : rmatch_obj) : str := rev (mo_start_before m).

(** [re.sub(r, repl, s)], left to right over non-overlapping matches; [repl]
    computes the replacement from the match (it reads the groups).  The
    patterns of the modelled functions match no empty string; at an empty
    match the scan copies one character and moves on.  [fuel] bounds the
    number of scan steps; [length s + 1] is enough. *)
Fixpoint sub_from (fuel : nat) (ic : bool) (r : re) (repl : rmatch_obj -> str)
         (b u : str) : str :=
  match fuel with
  | O => u
  | S fuel' =>
      match match_at ic r b u with
      | Some m =>
          let mo := MObj b u m in
          if Nat.ltb (length (m_after m)) (length u)
          then repl mo ++ sub_from fuel' ic r repl (m_before m) (m_after m)
          else match u with
               | [] => repl mo
               | x :: u' => repl mo ++ x :: sub_from fuel' ic r repl (x :: b) u'
               end
      | None =>
          match u with
          | [] => []
          | x :: u' => x :: sub_from fuel' ic r repl (x :: b) u'
          end
      end
  end.

Definition sub (ic : bool) (r : re) (repl : rmatch_obj -> str) (s : str) : str :=
  sub_from (S (length s)) ic r repl [] s.

(** [re.sub] with a constant replacement string. *)
Definition sub_const (ic : bool) (r : re) (repl : str) (s : str) : str :=
  sub ic r (fun _ => repl) s.

(** [pattern.finditer(s)]: the successive non-overlapping matches. *)
Fixpoint finditer_from (fuel : nat) (ic : bool) (r : re) (b u : str)
  : list rmatch_obj :=
  match fuel with
  | O => []
  | S fuel' =>
      match search_from ic r b u with
      | None => []
      | Some mo =>
          let m := mo_end mo in
          if Nat.ltb (length (m_after m)) (length (mo_start_after mo))
          then mo :: finditer_from fuel' ic r (m_before m) (m_after m)
          else match m_after m with
               | [] => [mo]
               | x :: u' => mo :: finditer_from fuel' ic r (x :: m_before m) u'
               end
      end
  end.

Definition finditer (ic : bool) (r : re) (s : str) : list rmatch_obj :=
  finditer_from (S (length s)) ic r [] s.

(** [pattern.split(s)]: the pieces between the matches, each match
    contributing the text of group 1 of the pattern (the source splits only
    on a pattern with one group). *)
Fixpoint split_from (fuel : nat) (ic : bool) (r : re) (b u : str) : list str :=
  match fuel with
  | O => [u]
  | S fuel' =>
      match search_from ic r b u with
      | None => [u]
      | Some mo =>
          let m := mo_end mo in
          let piece := firstn (length u - length (mo_start_after mo)) u in
          if Nat.ltb (length (m_after m)) (length (mo_start_after mo))
          then piece :: group 1 mo
                 :: split_from fuel' ic r (m_before m) (m_after m)
          else [u]
      end
  end.

Definition split (ic : bool) (r : re) (s : str) : list str :=
  split_from (S (length s)) ic r [] s.

(** Pattern-building helpers. *)
Fixpoint word (s : str) : re :=
  match s with
  | [] => Eps
  | [c] => Lit c
  | c :: s' => Cat (Lit c) (word s')
  end.

Definition w (s : string) : re := word (lit s).

Fixpoint alts (rs : list re) : re :=
  match rs with
  | [] => Eps
  | [r] => r
  | r :: rs' => Alt r (alts rs')
  end.

Fixpoint cats (rs : list re) : re :=
  match rs with
  | [] => Eps
  | [r] => r
  | r :: rs' => Cat r (cats rs')
  end.

Definition plus (p : ascii -> bool) : re := Cat (Cls p) (Star p).

Definition one_of (s : string) (c : ascii) : bool :=
  existsb (eqc c) (lit s).

Definition ws_star : re := Star is_space.     (* \s* *)
Definition ws_plus : re := plus is_space.     (* \s+ *)

End Re.

Import Re.

(** ** Utils and normalization *)

(** [normalize(s)].  On ASCII text what remains of the source's steps is the
    lower-casing, the collapse of whitespace runs and the strip. *)
Definition normalize (s : str) : str :=
  strip (sub_const false ws_plus (lit " ") (lower s)).

Definition point : Type := Z * Z.

(** A bounding box: the four corner points of [quad_from_xywh]. *)
Record quad : Type := Quad { q0 : point; q1 : point; q2 : point; q3 : point }.

Definition quad_from_xywh (x y w h : Z) : quad :=
  Quad (x, y) (x + w, y) (x + w, y + h) (x, y + h).

Definition rect : Type := Z * Z * Z * Z.

Definition min4 (a b c d : Z) : Z := Z.min (Z.min a b) (Z.min c d).
Definition max4 (a b c d : Z) : Z := Z.max (Z.max a b) (Z.max c d).

(** [rect_from_bbox(bbox)] = (min xs, min ys, max xs, max ys). *)
Definition rect_from_bbox (q : quad) : rect :=
  let xs := (fst (q0 q), fst (q1 q), fst (q2 q), fst (q3 q)) in
  let ys := (snd (q0 q), snd (q1 q), snd (q2 q), snd (q3 q)) in
  let '(xa, xb, xc, xd) := xs in
  let '(ya, yb, yc, yd) := ys in
  (min4 xa xb xc xd, min4 ya yb yc yd, max4 xa xb xc xd, max4 ya yb yc yd).

(** An OCR token: [{text, confidence, bbox}]. *)
Record item : Type := Item {
  text : str;
  confidence : option Q;
  bbox : quad
}.

(** [int(0.5 * n)] *)
Definition half (n : Z) : Z := Z.quot n 2.

(** ** Line grouping *)

(** A line under construction: [{"y", "y_vals", "items"}]. *)
Record line : Type := Line {
  l_y : Z;
  l_y_vals : list Z;
  l_items : list item
}.

(** [sorted(l, key=key)] and [l.sort(key=key)]: a stable sort. *)
Fixpoint insert_by {A : Type} (key : A -> Z) (x : A) (l : list A) : list A :=
  match l with
  | [] => [x]
  | y :: l' => if key y <? key x then y :: insert_by key x l' else x :: l
  end.

Fixpoint sorted_by {A : Type} (key : A -> Z) (l : list A) : list A :=
  match l with
  | [] => []
  | x :: l' => insert_by key x (sorted_by key l')
  end.

(** [int(np.median(vals))]: the middle value, or the mean of the two middle
    values, truncated. *)
Definition median_int (vals : list Z) : Z :=
  let s := sorted_by (fun z => z) vals in
  let n := length s in
  if Nat.even n
  then Z.quot (nth (n / 2 - 1) s 0 + nth (n / 2) s 0) 2
  else nth (n / 2) s 0.

(** [mid_y(it)] *)
Definition mid_y (it : item) : Z :=
  let '(x1, y1, x2, y2) := rect_from_bbox (bbox it) in half (y1 + y2).

(** [rect_from_bbox(it["bbox"])[0]] *)
Definition left_x (it : item) : Z :=
  let '(x1, y1, x2, y2) := rect_from_bbox (bbox it) in x1.

(** [y_tol = max(10.0, int(page_h * y_tol_ratio))] with the default ratio
    0.02. *)
Definition y_tol_of (page_h : Z) : Z := Z.max 10 (Z.quot page_h 50).

(** The inner loop of [group_by_lines] for one token: it joins the first line
    whose center is within the tolerance, whose median is then recomputed;
    when no line takes it, it starts a new line at the end. *)
Fixpoint place (y_tol : Z) (it : item) (y : Z) (lines : list line) : list line :=
  match lines with
  | [] => [Line y [y] [it]]
  | ln :: rest =>
      if Z.abs (l_y ln - y) <=? y_tol
      then let vals := l_y_vals ln ++ [y] in
           Line (median_int vals) vals (l_items ln ++ [it]) :: rest
      else ln :: place y_tol it y rest
  end.

Definition place_all (y_tol : Z) (its : list item) : list line :=
  fold_left (fun lines it => place y_tol it (mid_y it) lines) its [].

Definition sort_line (ln : line) : line :=
  Line (l_y ln) (l_y_vals ln) (sorted_by left_x (l_items ln)).

(** [group_by_lines(items, page_h)] *)
Definition group_by_lines (items : list item) (page_h : Z) : list line :=
  match items with
  | [] => []
  | _ => map sort_line (place_all (y_tol_of page_h) (sorted_by mid_y items))
  end.

(** [join_items_text(items)] *)
Definition join_items_text (its : list item) : str :=
  strip (join (lit " ") (map text its)).

(** The line nearest to the vertical center [am]: the loop
    [for i, ln in enumerate(lines): dy = abs(ln["y"] - am); if dy < best: ...]
    started with [idx = None], [best = 1e9]. *)
Fixpoint nearest_from (am : Z) (i : nat) (lines : list line)
         (idx : option nat) (best : Z) : option nat :=
  match lines with
  | [] => idx
  | ln :: rest =>
      let dy := Z.abs (l_y ln - am) in
      if dy <? best
      then nearest_from am (S i) rest (Some i) dy
      else nearest_from am (S i) rest idx best
  end.

Definition nearest_line (am : Z) (lines : list line) : option nat :=
  nearest_from am 0 lines None 1000000000.

(** ** Anchors *)

(** The label patterns of [ANCHORS] for the two attestation fields. *)
Definition anchor_scheduled_tribe : list re :=
  [cats [w "scheduled"; ws_star; w "tribe"]].

Definition anchor_otfd : list re :=
  [cats [w "other"; ws_star; w "traditional"; ws_star; w "forest"; ws_star;
         w "dweller"]].

Definition found (m : option rmatch_obj) : bool :=
  match m with Some _ => true | None => false end.

(** [find_anchor_item(items, patterns)] *)
Fixpoint find_anchor_item (items : list item) (patterns : list re) : option item :=
  match items with
  | [] => None
  | it :: rest =>
      let t := normalize (text it) in
      if existsb (fun pat => found (search true pat t)) patterns
      then Some it
      else find_anchor_item rest patterns
  end.

(** ** Stop-label cut *)

(** [STOP_LABEL_PAT], compiled with [re.I]. *)
Definition stop_body : re :=
  alts [ w "name of"; w "address"; w "village";
         cats [w "gram"; ws_star; w "panchayat"]; w "gp";
         cats [w "teh"; Opt (Lit "s"); w "il"]; w "taluka"; w "district";
         w "scheduled"; cats [w "other"; ws_plus; w "traditional"];
         w "nature of claim"; w "evidence"; w "extent of";
         w "habitation";
         cats [w "self"; Star (fun c => (eqc c "-" || is_space c)%bool);
               w "cultivation"];
         w "signature"; w "thumb impression" ].

Definition STOP_LABEL_PAT : re := cats [Wb; Grp 1 stop_body; Wb].

(** [cut_at_next_label(text)] *)
Definition cut_at_next_label (t : str) : str :=
  match split true STOP_LABEL_PAT t with
  | piece :: _ => strip piece
  | [] => strip t
  end.

(** ** Sanitizers *)

Definition person_blacklist : re :=
  cats [Wb;
        Grp 1 (alts [ w "house"; w "address"; w "village"; w "district";
                      w "taluka"; cats [w "teh"; Opt (Lit "s"); w "il"];
                      w "panchayat"; w "gp";
                      cats [w "patta"; Opt (Lit "s")];
                      cats [w "lease"; Opt (Lit "s"); Opt (Lit "l")];
                      cats [w "grant"; Opt (Lit "s")] ]);
        Wb].

(** The class [[0-9\[\]\(\)\/:,]]. *)
Definition person_junk (c : ascii) : bool :=
  (is_digit c || one_of "[]()/:," c)%bool.

(** [sanitize_person_value(s)] *)
Definition sanitize_person_value (s : str) : str :=
  let t := normalize s in
  let t := sub_const false person_blacklist (lit " ") t in
  let t := sub_const false (plus person_junk) (lit " ") t in
  let t := strip (sub_const false ws_plus (lit " ") t) in
  let parts := split_ws t in
  match parts with
  | [] => []
  | _ => join (lit " ") (firstn 3 parts)
  end.

(** ** Area with unit *)

(** The number-then-unit pattern
    [([0-9]+(?:[.,]\s*[0-9]+|\s+[0-9]{2})?)\s*h[a..]\b] under [re.I]; the second
    member of the final class is not an ASCII character. *)
Definition num_pat : re :=
  cats [ Grp 1 (Cat (plus is_digit)
                    (Opt (Alt (cats [Cls (one_of ".,"); ws_star; plus is_digit])
                              (cats [ws_plus; Cls is_digit; Cls is_digit]))));
         ws_star; Lit "h"; Lit "a"; Wb ].

(** The two keyword patterns of [extract_page_fields]. *)
Definition kw_habitation : re :=
  cats [Wb; w "habitation"; Star (fun c => (eqc c ":" || is_space c)%bool)].

Definition kw_self_cultivation : re :=
  cats [Wb; w "self"; Star (fun c => (eqc c "-" || is_space c)%bool);
        w "cultivation"; Star (fun c => (eqc c ":" || is_space c)%bool)].

Fixpoint digits_value (acc : N) (s : str) : option N :=
  match s with
  | [] => Some acc
  | c :: s' =>
      if is_digit c then digits_value (acc * 10 + (code c - 48)) s' else None
  end.

Fixpoint split_at_dot (s : str) : str * option str :=
  match s with
  | [] => ([], None)
  | c :: s' =>
      if eqc c "." then ([], Some s')
      else let '(a, b) := split_at_dot s' in (c :: a, b)
  end.

(** [float(token)] on the decimal numerals [d+] and [d+.d+], which is what
    the fix-ups of the source leave of a match of group 1; the value is the
    exact rational (0.25 and 1.25 are floats).  On other text the model
    answers [None], where the source's [except] goes on to the next
    candidate. *)
Definition float_of (token : str) : option Q :=
  let '(ip, fp) := split_at_dot token in
  match ip, fp with
  | [], _ => None
  | _, None =>
      match digits_value 0 ip with
      | Some n => Some (Qred (Z.of_N n # 1))
      | None => None
      end
  | _, Some [] => None
  | _, Some f =>
      match digits_value 0 ip, digits_value 0 f with
      | Some n, Some m =>
          let scale := Pos.pow 10 (Pos.of_nat (length f)) in
          Some (Qred ((Z.of_N n * Z.pos scale + Z.of_N m) # scale))
      | _, _ => None
      end
  end.

(** The three fix-ups applied to group 1. *)
Definition fix_decimal (token : str) : str :=
  let token := replace_char "," "." token in
  let token := sub_const false (cats [ws_star; Lit "."; ws_star]) (lit ".") token in
  sub false (cats [Grp 1 (Cls is_digit); ws_plus;
                   Grp 2 (Cat (Cls is_digit) (Cls is_digit)); Eos])
      (fun m => group 1 m ++ lit "." ++ group 2 m) token.

Fixpoint first_some {A B : Type} (f : A -> option B) (l : list A) : option B :=
  match l with
  | [] => None
  | x :: l' => match f x with Some v => Some v | None => first_some f l' end
  end.

(** The body of both loops of [number_after_keyword_with_ha] on one text. *)
Definition area_in_text (kw : re) (max_chars : nat) (txt : str) : option Q :=
  first_some
    (fun m =>
       let window := firstn max_chars (m_after (mo_end m)) in
       match search true num_pat window with
       | Some mnum => float_of (fix_decimal (group 1 mnum))
       | None => None
       end)
    (finditer true kw txt).

Fixpoint adjacent_pairs {A : Type} (l : list A) : list (A * A) :=
  match l with
  | x :: ((y :: _) as l') => (x, y) :: adjacent_pairs l'
  | _ => []
  end.

(** [txt = normalize(" ".join([it.get("text","") for it in items]))] *)
Definition items_text (its : list item) : str :=
  normalize (join (lit " ") (map text its)).

Definition line_text (ln : line) : str := items_text (l_items ln).

(** [number_after_keyword_with_ha(lines, keyword_regex, max_chars)]: first
    each line, then each pair of adjacent lines. *)
Definition number_after_keyword_with_ha (lines : list line) (kw : re)
           (max_chars : nat) : option Q :=
  match first_some (fun ln => area_in_text kw max_chars (line_text ln)) lines with
  | Some v => Some v
  | None =>
      first_some
        (fun p : line * line =>
           area_in_text kw max_chars
             (items_text (l_items (fst p) ++ l_items (snd p))))
        (adjacent_pairs lines)
  end.

Definition tok (s : string) (x y wd ht : Z) : item :=
  Item (lit s) None (quad_from_xywh x y wd ht).

(** ** Yes/No resolution *)

Definition re_yes : re := cats [Wb; w "yes"; Wb].
Definition re_no : re := cats [Wb; w "no"; Wb].

(** [harvest(ln)] of [yes_no_from_near_text]: what it appends to
    [candidates]. *)
Definition harvest (ln : line) : list str :=
  flat_map
    (fun it =>
       let t := normalize (text it) in
       (if found (search false re_yes t) then [lit "yes"] else [])
         ++ (if found (search false re_no t) then [lit "no"] else []))
    (l_items ln).

(** [x in candidates] *)
Definition mem (x : str) (l : list str) : bool := existsb (str_eqb x) l.

(** The lines [yes_no_from_near_text] harvests: the line at [idx] and the one
    after it, when there is one. *)
Definition near_lines (lines : list line) (idx : option nat) : list line :=
  match idx with
  | None => []
  | Some i =>
      match nth_error lines i with
      | None => []
      | Some ln =>
          ln :: (if Nat.ltb (i + 1) (length lines)
                 then match nth_error lines (i + 1) with
                      | Some ln' => [ln']
                      | None => []
                      end
                 else [])
      end
  end.

(** [yes_no_from_near_text(items, anchor_rect, page_w, page_h)] *)
Definition yes_no_from_near_text (items : list item) (anchor_rect : rect)
           (page_w page_h : Z) : option bool :=
  let '(ax1, ay1, ax2, ay2) := anchor_rect in
  let lines := group_by_lines items page_h in
  let am := half (ay1 + ay2) in
  let idx := nearest_line am lines in
  let candidates := flat_map harvest (near_lines lines idx) in
  match candidates with
  | [] => None
  | _ =>
      if (mem (lit "yes") candidates && negb (mem (lit "no") candidates))%bool
      then Some true
      else if (mem (lit "no") candidates && negb (mem (lit "yes") candidates))%bool
      then Some false
      else None
  end.

(** ** Checkbox pairs *)

(** A detected checkbox: [{bbox, filled, fill_ratio, near_label}]. *)
Record checkbox : Type := Checkbox {
  cb_bbox : quad;
  filled : bool;
  fill_ratio : Q;
  near_label : option str
}.

(** The shapes of a page, [m2_page]; signatures and stamps are kept as their
    boxes. *)
Record m2_page : Type := M2Page {
  checkboxes : list checkbox;
  signatures : list quad;
  stamps : list quad
}.

Definition cb_left_x (b : checkbox) : Z :=
  let '(x1, y1, x2, y2) := rect_from_bbox (cb_bbox b) in x1.

Definition cb_mid_y (b : checkbox) : Z :=
  let '(x1, y1, x2, y2) := rect_from_bbox (cb_bbox b) in half (y1 + y2).

(** The boxes within the vertical band of the anchor:
    [abs(my - cy) <= max(12, int((by2-by1)*1.5))]. *)
Definition close_boxes (anchor_rect : rect) (boxes : list checkbox) : list checkbox :=
  let '(bx1, by1, bx2, by2) := anchor_rect in
  let cy := half (by1 + by2) in
  filter (fun b => Z.abs (cb_mid_y b - cy) <=? Z.max 12 (Z.quot ((by2 - by1) * 3) 2))
         boxes.

(** [b.get("near_label") or ""] *)
Definition label_of (b : checkbox) : str :=
  match near_label b with Some l => l | None => [] end.

(** The loop "Try label text on boxes". *)
Fixpoint label_vote (close : list checkbox) : option bool :=
  match close with
  | [] => None
  | b :: rest =>
      let lab := label_of b in
      if (contains (lit "yes") lab && filled b)%bool then Some true
      else if (contains (lit "no") lab && filled b)%bool then Some false
      else label_vote rest
  end.

(** [bool_from_checkboxes_near(anchor_rect, m2_page)]; a page without shapes
    is the record with empty lists, on which the function answers [None] as
    the source does on an empty dictionary. *)
Definition bool_from_checkboxes_near (anchor_rect : option rect) (m2 : m2_page)
  : option bool :=
  match anchor_rect with
  | None => None
  | Some r =>
      let close := close_boxes r (checkboxes m2) in
      let close := if Nat.leb 2 (length close) then sorted_by cb_left_x close
                   else close in
      match close with
      | lft :: rgt :: _ =>
          if xorb (filled lft) (filled rgt)
          then Some (filled lft)
          else label_vote close
      | _ => label_vote close
      end
  end.

(** ** Per-page extraction *)

(** [page_meta]: only the size is read. *)
Record page_meta : Type := PageMeta { height : option Z; width : option Z }.

(** [int(page_meta.get(key) or default)] *)
Definition dim_or (d : option Z) (default : Z) : Z :=
  match d with
  | Some z => if z =? 0 then default else z
  | None => default
  end.

(** The rectangle [get_after(key)] returns besides the text: the box of the
    anchor token, if any. *)
Definition anchor_rect_of (items : list item) (labels : list re) : option rect :=
  match find_anchor_item items labels with
  | Some it => Some (rect_from_bbox (bbox it))
  | None => None
  end.

(** [x is True] *)
Definition is_True (v : option bool) : bool :=
  match v with Some true => true | _ => false end.

(** The exclusivity rule of [extract_page_fields]. *)
Definition exclusive (st ot : option bool) : option bool * option bool :=
  if (is_True st && is_True ot)%bool then (st, Some false) else (st, ot).

(** The [scheduled_tribe] and [otfd] slots of [extract_page_fields(page_meta,
    items, m2_page)]: checkboxes first, else near text, then the exclusivity
    rule. *)
Definition extract_st_otfd (meta : page_meta) (items : list item) (m2 : m2_page)
  : option bool * option bool :=
  let h := dim_or (height meta) 3500 in
  let w := dim_or (width meta) 2500 in
  let st_rect := anchor_rect_of items anchor_scheduled_tribe in
  let ot_rect := anchor_rect_of items anchor_otfd in
  let st_box := bool_from_checkboxes_near st_rect m2 in
  let ot_box := bool_from_checkboxes_near ot_rect m2 in
  let st_box := match st_box, st_rect with
                | None, Some r => yes_no_from_near_text items r w h
                | _, _ => st_box
                end in
  let ot_box := match ot_box, ot_rect with
                | None, Some r => yes_no_from_near_text items r w h
                | _, _ => ot_box
                end in
  exclusive st_box ot_box.

(** Truth of an optional string: neither [None] nor empty. *)
Definition truthy (v : option str) : bool :=
  match v with Some (_ :: _) => true | _ => false end.

(** The post-fix "claimant/spouse merged" of [extract_page_fields], on the
    two slots it reads and writes. *)
Definition postfix_claimant_spouse (claimant spouse : option str)
  : option str * option str :=
  match claimant, spouse with
  | Some c, Some s =>
      if (truthy claimant && truthy spouse
          && str_eqb (normalize c) (normalize s))%bool
      then let toks := split_ws c in
           if Nat.eqb (length toks) 3
           then (Some (join (lit " ") (firstn 2 toks)),
                 Some (nth 2 toks []))
           else if Nat.eqb (length toks) 4
           then (Some (join (lit " ") (firstn 2 toks)),
                 Some (join (lit " ") (skipn 2 toks)))
           else (claimant, spouse)
      else (claimant, spouse)
  | _, _ => (claimant, spouse)
  end.

(** ** Cross-page merge *)

(** A dependent member: [{"name": ..., "age": ...}], the age optional. *)
Record member : Type := Member { name : option str; age : option Z }.

(** The values of the field dictionaries. *)
Inductive value : Type :=
| VNone
| VStr (s : str)
| VBool (b : bool)
| VFloat (q : Q)
| VList (l : list member).

(** The keys of [out] and [merged]. *)
Inductive field : Type :=
| claimant_name | spouse_name | father_name | mother_name
| address | village | gram_panchayat | tehsil_taluka | district
| scheduled_tribe | otfd | other_members
| habitation_area_ha | self_cultivation_area_ha | signature_present.

(** A field dictionary; [f k] is [f.get(k)], [VNone] for a missing key. *)
Definition fields : Type := field -> value.

Definition field_eqb (a b : field) : bool :=
  match a, b with
  | claimant_name, claimant_name | spouse_name, spouse_name
  | father_name, father_name | mother_name, mother_name
  | address, address | village, village
  | gram_panchayat, gram_panchayat | tehsil_taluka, tehsil_taluka
  | district, district | scheduled_tribe, scheduled_tribe | otfd, otfd
  | other_members, other_members
  | habitation_area_ha, habitation_area_ha
  | self_cultivation_area_ha, self_cultivation_area_ha
  | signature_present, signature_present => true
  | _, _ => false
  end.

(** [d[k] = v] *)
Definition set_field (d : fields) (k : field) (v : value) : fields :=
  fun k' => if field_eqb k k' then v else d k'.

(** The initial [merged] dictionary. *)
Definition merged_init : fields :=
  fun k => match k with other_members => VList [] | _ => VNone end.

(** [cur in [None, "", []]] *)
Definition unset (v : value) : bool :=
  match v with
  | VNone | VStr [] | VList [] => true
  | _ => false
  end.

(** [pick(cur, new)] *)
Definition pick (cur new : value) : value := if unset cur then new else cur.

(** The identity of a member: [(m.get("name"), m.get("age"))]. *)
Definition member_key : Type := option str * option Z.

Definition key_of (m : member) : member_key := (name m, age m).

Definition opt_eqb {A : Type} (eqb : A -> A -> bool) (a b : option A) : bool :=
  match a, b with
  | Some x, Some y => eqb x y
  | None, None => true
  | _, _ => false
  end.

Definition key_eqb (a b : member_key) : bool :=
  (opt_eqb str_eqb (fst a) (fst b) && opt_eqb Z.eqb (snd a) (snd b))%bool.

(** [key in existing] *)
Definition key_in (k : member_key) (existing : list member_key) : bool :=
  existsb (key_eqb k) existing.

(** The loop [for mm in (f.get(k) or [])]: the state is [merged[k]] and the
    set [existing]. *)
Fixpoint add_members (merged : list member) (existing : list member_key)
         (new : list member) : list member :=
  match new with
  | [] => merged
  | mm :: rest =>
      let key := key_of mm in
      if key_in key existing
      then add_members merged existing rest
      else add_members (merged ++ [mm]) (key :: existing) rest
  end.

(** [f.get("other_members") or []] *)
Definition members_of (v : value) : list member :=
  match v with VList l => l | _ => [] end.

(** One page of the merge loop, over all keys. *)
Definition merge_page (merged f : fields) : fields :=
  fun k =>
    match k with
    | other_members =>
        let cur := members_of (merged other_members) in
        VList (add_members cur (map key_of cur) (members_of (f other_members)))
    | _ => pick (merged k) (f k)
    end.

Definition merge_pages (pages : list fields) : fields :=
  fold_left merge_page pages merged_init.

(** [v is True] on a dictionary value. *)
Definition is_VTrue (v : value) : bool :=
  match v with VBool true => true | _ => false end.

(** "Exclusivity ST/OTFD after merge". *)
Definition exclusivity_after_merge (merged : fields) : fields :=
  if (is_VTrue (merged scheduled_tribe) && is_VTrue (merged otfd))%bool
  then set_field merged otfd (VBool false)
  else merged.

(** The [extracted] record of [process_document], from the per-page
    fields. *)
Definition merge_document (pages : list fields) : fields :=
  exclusivity_after_merge (merge_pages pages).

(* ================================================================== *)
(** * Part II.  Properties                                             *)
(* ================================================================== *)

(** ** Basic facts on text *)

Lemma eqc_eq (a b : ascii) : eqc a b = true <-> a = b.
Proof. unfold eqc. apply Ascii.eqb_eq. Qed.

Lemma str_eqb_eq (a b : str) : str_eqb a b = true <-> a = b.
Proof.
  revert b. induction a as [|x a IH]; intros [|y b]; simpl;
    try (split; congruence).
  rewrite andb_true_iff, eqc_eq, IH. split.
  - intros [-> ->]. reflexivity.
  - intros E. injection E. auto.
Qed.

Lemma str_eqb_refl (a : str) : str_eqb a a = true.
Proof. apply str_eqb_eq. reflexivity. Qed.

Lemma opt_eqb_eq {A : Type} (eqb : A -> A -> bool) :
  (forall x y, eqb x y = true <-> x = y) ->
  forall a b, opt_eqb eqb a b = true <-> a = b.
Proof.
  intros H [x|] [y|]; simpl; try (split; congruence).
  rewrite H. split; congruence.
Qed.

Lemma key_eqb_eq (a b : member_key) : key_eqb a b = true <-> a = b.
Proof.
  destruct a as [n1 a1], b as [n2 a2]. unfold key_eqb. simpl.
  rewrite andb_true_iff, (opt_eqb_eq str_eqb str_eqb_eq),
    (opt_eqb_eq Z.eqb Z.eqb_eq).
  split.
  - intros [-> ->]. reflexivity.
  - intros E. injection E. auto.
Qed.

Lemma key_in_In (k : member_key) (l : list member_key) :
  key_in k l = true <-> In k l.
Proof.
  unfold key_in. rewrite existsb_exists. split.
  - intros [x [Hx E]]. apply key_eqb_eq in E. subst. exact Hx.
  - intros H. exists k. split; [exact H | apply key_eqb_eq; reflexivity].
Qed.

(** ** The stable sort *)

Section StableSort.

Context {A : Type} (key : A -> Z).

Definition key_le (x y : A) : Prop := key x <= key y.

Lemma insert_by_perm (x : A) (l : list A) :
  Permutation (x :: l) (insert_by key x l).
Proof.
  induction l as [|y l IH]; simpl.
  - apply Permutation_refl.
  - destruct (key y <? key x).
    + eapply perm_trans; [apply perm_swap|]. apply perm_skip, IH.
    + apply Permutation_refl.
Qed.

Lemma sorted_by_perm (l : list A) : Permutation l (sorted_by key l).
Proof.
  induction l as [|x l IH]; simpl.
  - apply perm_nil.
  - eapply perm_trans; [apply perm_skip, IH | apply insert_by_perm].
Qed.

Lemma insert_by_sorted (x : A) (l : list A) :
  StronglySorted key_le l -> StronglySorted key_le (insert_by key x l).
Proof.
  induction l as [|y l IH]; intros S; simpl.
  - constructor; constructor.
  - inversion S as [|? ? S' F]; subst.
    destruct (key y <? key x) eqn:E.
    + apply Z.ltb_lt in E. constructor; [apply IH, S'|].
      apply (Permutation_Forall (insert_by_perm x l)).
      constructor; [unfold key_le; lia | exact F].
    + apply Z.ltb_ge in E. constructor; [exact S|].
      constructor; [exact E|].
      eapply Forall_impl; [|exact F]. unfold key_le. intros; lia.
Qed.

Lemma sorted_by_sorted (l : list A) : StronglySorted key_le (sorted_by key l).
Proof.
  induction l as [|x l IH]; simpl.
  - constructor.
  - apply insert_by_sorted, IH.
Qed.

Lemma sorted_by_length (l : list A) : length (sorted_by key l) = length l.
Proof. symmetry. apply Permutation_length, sorted_by_perm. Qed.

End StableSort.

(** ** Name sanitization (C6) *)

(** C6 (as amended).  On the raw input "sh. ram kumar house no 12 village x"
    the person-name sanitizer returns "sh. ram kumar": the blacklist words
    "house" and "village" and the digits are stripped and three tokens are
    kept, but the period of "sh." stays, the stripped class being
    [[0-9\[\]\(\)\/:,]]. *)
Theorem sanitize_person_value_example :
  sanitize_person_value (lit "sh. ram kumar house no 12 village x")
  = lit "sh. ram kumar".
Proof. vm_compute. reflexivity. Qed.

(** C6 as stated fails: the result is not "sh ram kumar". *)
Lemma sanitize_person_value_keeps_period :
  exists out,
    sanitize_person_value (lit "sh. ram kumar house no 12 village x") = out
    /\ out <> lit "sh ram kumar".
Proof.
  exists (lit "sh. ram kumar"). split.
  - vm_compute. reflexivity.
  - vm_compute. discriminate.
Qed.

(** ** Area parsing (C7) *)

(** C7.  With the habitation keyword and a single line whose normalized text
    is "habitation 0.25 ha" the area parser returns 0.25 (the rational 1/4);
    when the text is "habitation 1 25 ha" it returns 1.25 (5/4), the
    space-separated two digits becoming the fraction. *)
Theorem number_after_keyword_habitation (ln : line) :
  (line_text ln = lit "habitation 0.25 ha" ->
   number_after_keyword_with_ha [ln] kw_habitation 40 = Some (1 # 4))
  /\ (line_text ln = lit "habitation 1 25 ha" ->
      number_after_keyword_with_ha [ln] kw_habitation 40 = Some (5 # 4)).
Proof.
  unfold number_after_keyword_with_ha. cbn [first_some adjacent_pairs].
  split; intros ->; vm_compute; reflexivity.
Qed.

Lemma number_after_keyword_habitation_witness :
  (line_text (Line 0 [0] [tok "Habitation" 0 0 90 20; tok "0.25" 100 0 40 20;
                          tok "ha" 150 0 20 20])
   = lit "habitation 0.25 ha"
   /\ number_after_keyword_with_ha
        [Line 0 [0] [tok "Habitation" 0 0 90 20; tok "0.25" 100 0 40 20;
                     tok "ha" 150 0 20 20]] kw_habitation 40 = Some (1 # 4))
  /\ (line_text (Line 0 [0] [tok "habitation" 0 0 90 20; tok "1" 100 0 10 20;
                             tok "25" 120 0 20 20; tok "Ha" 150 0 20 20])
      = lit "habitation 1 25 ha"
      /\ number_after_keyword_with_ha
           [Line 0 [0] [tok "habitation" 0 0 90 20; tok "1" 100 0 10 20;
                        tok "25" 120 0 20 20; tok "Ha" 150 0 20 20]]
           kw_habitation 40 = Some (5 # 4)).
Proof.
  split.
  - assert (H : line_text (Line 0 [0] [tok "Habitation" 0 0 90 20;
                                       tok "0.25" 100 0 40 20;
                                       tok "ha" 150 0 20 20])
                = lit "habitation 0.25 ha") by (vm_compute; reflexivity).
    split; [exact H|].
    exact (proj1 (number_after_keyword_habitation _) H).
  - assert (H : line_text (Line 0 [0] [tok "habitation" 0 0 90 20;
                                       tok "1" 100 0 10 20;
                                       tok "25" 120 0 20 20;
                                       tok "Ha" 150 0 20 20])
                = lit "habitation 1 25 ha") by (vm_compute; reflexivity).
    split; [exact H|].
    exact (proj2 (number_after_keyword_habitation _) H).
Defined.

(** ** Scheduled-tribe / OTFD exclusivity (C1) *)

Lemma exclusive_not_both (st ot : option bool) :
  fst (exclusive st ot) = Some true ->
  snd (exclusive st ot) = Some false \/ snd (exclusive st ot) = None.
Proof. destruct st as [[|]|], ot as [[|]|]; simpl; auto; discriminate. Qed.

Lemma exclusive_forces_false :
  exclusive (Some true) (Some true) = (Some true, Some false).
Proof. reflexivity. Qed.

Lemma exclusivity_after_merge_not_both (m : fields) :
  exclusivity_after_merge m scheduled_tribe = VBool true ->
  exclusivity_after_merge m otfd <> VBool true.
Proof.
  unfold exclusivity_after_merge.
  destruct (is_VTrue (m scheduled_tribe)) eqn:Hs, (is_VTrue (m otfd)) eqn:Ho;
    simpl; unfold set_field; simpl; intros H; try discriminate;
    try (rewrite H in Hs; discriminate);
    intros E; rewrite E in Ho; discriminate.
Qed.

(** A page on which the token "ScheduledTribe" is followed on its line by
    "Yes" and which has no checkbox and no OTFD label. *)
Definition page_st_yes : list item :=
  [tok "ScheduledTribe" 100 200 300 40; tok "Yes" 450 200 60 40].

Definition no_shapes : m2_page := M2Page [] [] [].

Definition meta_a4 : page_meta := PageMeta (Some 3500) (Some 2500).

(** C1 (as amended).  In the scheduled_tribe and otfd slots that
    [extract_page_fields] returns, and in the merged record of
    [process_document], the two are never both true: when scheduled_tribe is
    true, otfd is false or null per page, and is not true after the merge.
    The rule that forces otfd to false is applied per page and after the
    merge. *)
Theorem exclusivity_never_both_true
        (meta : page_meta) (items : list item) (m2 : m2_page)
        (pages : list fields) :
  (fst (extract_st_otfd meta items m2) = Some true ->
   snd (extract_st_otfd meta items m2) = Some false
   \/ snd (extract_st_otfd meta items m2) = None)
  /\ (merge_document pages scheduled_tribe = VBool true ->
      merge_document pages otfd <> VBool true).
Proof.
  split.
  - unfold extract_st_otfd. apply exclusive_not_both.
  - apply exclusivity_after_merge_not_both.
Qed.

(** C1 as stated fails: scheduled_tribe is true and otfd is null, not
    false, on a page that has the scheduled-tribe label with "Yes" beside it
    and no OTFD label. *)
Lemma exclusivity_otfd_may_be_null :
  exists r,
    extract_st_otfd meta_a4 page_st_yes no_shapes = r
    /\ fst r = Some true /\ snd r = None /\ snd r <> Some false.
Proof.
  exists (Some true, None).
  split; [vm_compute; reflexivity|].
  split; [reflexivity|]. split; [reflexivity|]. discriminate.
Qed.

(** ** Merge: first page wins (C3) *)

Lemma merge_page_scalar (m f : fields) (k : field) :
  k <> other_members -> merge_page m f k = pick (m k) (f k).
Proof. destruct k; intros H; try reflexivity. congruence. Qed.

Lemma merge_pages_set (pages : list fields) (m : fields) (k : field) :
  k <> other_members -> unset (m k) = false ->
  fold_left merge_page pages m k = m k.
Proof.
  intros Hk. revert m. induction pages as [|f pages IH]; intros m Hm; simpl.
  - reflexivity.
  - rewrite IH.
    + rewrite merge_page_scalar by exact Hk. unfold pick. rewrite Hm.
      reflexivity.
    + rewrite merge_page_scalar by exact Hk. unfold pick. rewrite Hm.
      exact Hm.
Qed.

Lemma merge_pages_first_set (before after : list fields) (p m : fields)
      (k : field) :
  k <> other_members ->
  unset (m k) = true ->
  Forall (fun q => unset (q k) = true) before ->
  unset (p k) = false ->
  fold_left merge_page (before ++ p :: after) m k = p k.
Proof.
  intros Hk Hm Hb Hp. revert m Hm.
  induction Hb as [|q before Hq Hb IH]; intros m Hm; simpl.
  - assert (E : merge_page m p k = p k).
    { rewrite merge_page_scalar by exact Hk. unfold pick. rewrite Hm.
      reflexivity. }
    rewrite merge_pages_set; [exact E | exact Hk | rewrite E; exact Hp].
  - apply IH. rewrite merge_page_scalar by exact Hk. unfold pick.
    rewrite Hm. exact Hq.
Qed.

Lemma merged_init_unset (k : field) : unset (merged_init k) = true.
Proof. destruct k; reflexivity. Qed.

(** C3 (as amended).  For every field but other_members the merge keeps the
    value of the earliest page whose value is not null, not the empty string
    and not the empty list, and no later page overrides it; the merged
    record holds that value, except that otfd is then replaced by false when
    the kept scheduled_tribe and the kept otfd are both true. *)
Theorem merge_first_wins (before after : list fields) (p : fields) (k : field) :
  k <> other_members ->
  Forall (fun q => unset (q k) = true) before ->
  unset (p k) = false ->
  merge_pages (before ++ p :: after) k = p k
  /\ merge_document (before ++ p :: after) k
     = if (field_eqb k otfd
           && is_VTrue (merge_pages (before ++ p :: after) scheduled_tribe)
           && is_VTrue (p k))%bool
       then VBool false else p k.
Proof.
  intros Hk Hb Hp.
  assert (E : merge_pages (before ++ p :: after) k = p k).
  { unfold merge_pages. apply merge_pages_first_set; auto.
    apply merged_init_unset. }
  split; [exact E|].
  unfold merge_document, exclusivity_after_merge.
  destruct (field_eqb k otfd) eqn:Ek.
  - assert (k = otfd) by (destruct k; simpl in Ek; congruence). subst k.
    rewrite E. simpl.
    destruct (is_VTrue (merge_pages (before ++ p :: after) scheduled_tribe)),
      (is_VTrue (p otfd)); simpl; auto.
  - simpl.
    destruct (is_VTrue (merge_pages (before ++ p :: after) scheduled_tribe)
              && is_VTrue (merge_pages (before ++ p :: after) otfd))%bool;
      [|exact E].
    unfold set_field. destruct k; simpl in *; try exact E; discriminate.
Qed.

(** The spec's example: page 1 has village "x", page 2 has village "y". *)
Definition page_village (v : string) : fields :=
  set_field merged_init village (VStr (lit v)).

Lemma merge_first_wins_witness :
  merge_pages ([] ++ page_village "x" :: [page_village "y"]) village
  = VStr (lit "x")
  /\ merge_document ([] ++ page_village "x" :: [page_village "y"]) village
     = VStr (lit "x").
Proof.
  refine (merge_first_wins [] [page_village "y"] (page_village "x") village
            _ _ _).
  - discriminate.
  - constructor.
  - reflexivity.
Defined.

(** C3 as stated fails for otfd: page 1 resolves scheduled_tribe to true and
    leaves otfd null, page 2 resolves otfd to true; the earliest non-null
    otfd is true, yet the merged record holds false. *)
Definition page_st_true : fields := set_field merged_init scheduled_tribe (VBool true).
Definition page_otfd_true : fields := set_field merged_init otfd (VBool true).

Lemma merge_otfd_not_first_value :
  unset (page_st_true otfd) = true
  /\ unset (page_otfd_true otfd) = false
  /\ page_otfd_true otfd = VBool true
  /\ merge_document [page_st_true; page_otfd_true] otfd = VBool false.
Proof. split; [|split; [|split]]; reflexivity. Qed.

(** ** Merge: union of the member lists (C4) *)

(** The spec's wording of the union: going through the members in page
    order, a member is kept exactly when its (name, age) pair has not
    occurred earlier; [earlier] holds the pairs of all the members already
    gone through. *)
Fixpoint first_seen (earlier : list member_key) (l : list member) : list member :=
  match l with
  | [] => []
  | m :: l' =>
      (if key_in (key_of m) earlier then [] else [m])
        ++ first_seen (earlier ++ [key_of m]) l'
  end.

(** All the members of the pages, in page order. *)
Definition all_members (pages : list fields) : list member :=
  flat_map (fun f => members_of (f other_members)) pages.

Lemma key_in_ext (k : member_key) (l1 l2 : list member_key) :
  (forall x, In x l1 <-> In x l2) -> key_in k l1 = key_in k l2.
Proof.
  intros H. destruct (key_in k l2) eqn:E.
  - apply key_in_In, H, key_in_In, E.
  - destruct (key_in k l1) eqn:E1; [|reflexivity].
    apply key_in_In, H, key_in_In in E1. congruence.
Qed.

Lemma first_seen_ext (l : list member) :
  forall e1 e2, (forall x, In x e1 <-> In x e2) ->
                first_seen e1 l = first_seen e2 l.
Proof.
  induction l as [|m l IH]; intros e1 e2 H; simpl.
  - reflexivity.
  - rewrite (key_in_ext _ e1 e2 H). f_equal. apply IH.
    intros x. rewrite !in_app_iff, H. reflexivity.
Qed.

Lemma add_members_first_seen (new : list member) :
  forall merged existing earlier,
    (forall x, In x existing <-> In x earlier) ->
    add_members merged existing new = merged ++ first_seen earlier new.
Proof.
  induction new as [|mm new IH]; intros merged existing earlier H; simpl.
  - rewrite app_nil_r. reflexivity.
  - rewrite (key_in_ext _ existing earlier H).
    destruct (key_in (key_of mm) earlier) eqn:E; simpl.
    + apply IH. intros x. rewrite in_app_iff, H. simpl.
      apply key_in_In in E. split; [auto|].
      intros [Hx|[<-|[]]]; assumption.
    + rewrite (IH (merged ++ [mm]) (key_of mm :: existing)
                  (earlier ++ [key_of mm])).
      * rewrite <- app_assoc. reflexivity.
      * intros x. rewrite in_app_iff. simpl. rewrite H. tauto.
Qed.

Lemma first_seen_app (l1 l2 : list member) :
  forall earlier,
    first_seen earlier (l1 ++ l2)
    = first_seen earlier l1 ++ first_seen (earlier ++ map key_of l1) l2.
Proof.
  induction l1 as [|m l1 IH]; intros earlier; simpl.
  - rewrite app_nil_r. reflexivity.
  - rewrite IH, <- !app_assoc. reflexivity.
Qed.

(** The kept members carry exactly the pairs seen so far. *)
Lemma first_seen_keys (l : list member) :
  forall earlier x,
    In x (earlier ++ map key_of (first_seen earlier l))
    <-> In x (earlier ++ map key_of l).
Proof.
  induction l as [|m l IH]; intros earlier x; simpl.
  - reflexivity.
  - rewrite map_app, !in_app_iff. simpl.
    specialize (IH (earlier ++ [key_of m]) x).
    rewrite !in_app_iff in IH. simpl in IH.
    destruct (key_in (key_of m) earlier) eqn:E; simpl.
    + apply key_in_In in E.
      assert (key_of m = x -> In x earlier) by (intros <-; exact E).
      tauto.
    + tauto.
Qed.

Lemma merge_pages_members (pages : list fields) :
  forall (m : fields) (seen : list member),
    members_of (m other_members) = first_seen [] seen ->
    members_of (fold_left merge_page pages m other_members)
    = first_seen [] (seen ++ all_members pages).
Proof.
  induction pages as [|f pages IH]; intros m seen Hm; simpl.
  - rewrite app_nil_r. exact Hm.
  - rewrite (IH (merge_page m f) (seen ++ members_of (f other_members))).
    + rewrite app_assoc. reflexivity.
    + simpl. rewrite Hm.
      rewrite (add_members_first_seen _ _ _ (map key_of seen)).
      * rewrite first_seen_app. reflexivity.
      * intros x. apply (first_seen_keys seen [] x).
Qed.

Lemma merge_document_members (pages : list fields) :
  merge_document pages other_members = merge_pages pages other_members.
Proof.
  unfold merge_document, exclusivity_after_merge.
  destruct (_ && _)%bool; reflexivity.
Qed.

(** C4.  The merged other_members list is the union of the pages' member
    lists by (name, age) identity in first-seen order: going through the
    members in page order, a member is appended exactly when its pair has not
    occurred earlier.  Page 1 [{A, 10}] and page 2 [{A, 10}, {B}] merge to
    [{A, 10}, {B}]. *)
Theorem merge_members_union (pages : list fields) :
  members_of (merge_document pages other_members)
  = first_seen [] (all_members pages)
  /\ members_of
       (merge_document
          [ set_field merged_init other_members
              (VList [Member (Some (lit "A")) (Some 10)]);
            set_field merged_init other_members
              (VList [Member (Some (lit "A")) (Some 10);
                      Member (Some (lit "B")) None]) ]
          other_members)
     = [Member (Some (lit "A")) (Some 10); Member (Some (lit "B")) None].
Proof.
  split; [|reflexivity].
  rewrite merge_document_members. unfold merge_pages.
  apply (merge_pages_members pages merged_init []). reflexivity.
Qed.

(** ** Checkbox pairs (C2) *)

Lemma sorted_by_two {A : Type} (key : A -> Z) (a b : A) :
  sorted_by key [a; b] = if key b <? key a then [b; a] else [a; b].
Proof. reflexivity. Qed.

Lemma label_vote_unfilled (close : list checkbox) :
  Forall (fun b => filled b = false) close -> label_vote close = None.
Proof.
  induction 1 as [|b close Hb _ IH]; simpl.
  - reflexivity.
  - rewrite Hb, !andb_false_r. exact IH.
Qed.

Lemma label_vote_unlabelled (close : list checkbox) :
  Forall (fun b => contains (lit "yes") (label_of b) = false
                   /\ contains (lit "no") (label_of b) = false) close ->
  label_vote close = None.
Proof.
  induction 1 as [|b close [Hy Hn] _ IH]; cbn [label_vote].
  - reflexivity.
  - cbv zeta. rewrite Hy, Hn. exact IH.
Qed.

(** C2 (as amended).  When exactly two checkboxes sit within the vertical
    band of the anchor, [lft] being the leftmost of the two: if exactly one
    of them is filled the result is true when [lft] is the filled one and
    false when it is not; if both are empty the result is null; if both are
    filled the result is that of the label heuristic over the two boxes from
    left to right (the first box whose label contains "yes" gives true,
    "no" gives false), and null when neither label contains "yes" or
    "no". *)
Theorem checkbox_pair_resolution
        (anchor : rect) (m2 : m2_page) (lft rgt : checkbox) :
  sorted_by cb_left_x (close_boxes anchor (checkboxes m2)) = [lft; rgt] ->
  cb_left_x lft <= cb_left_x rgt
  /\ (xorb (filled lft) (filled rgt) = true ->
      bool_from_checkboxes_near (Some anchor) m2 = Some (filled lft))
  /\ (filled lft = false -> filled rgt = false ->
      bool_from_checkboxes_near (Some anchor) m2 = None)
  /\ (filled lft = true -> filled rgt = true ->
      bool_from_checkboxes_near (Some anchor) m2 = label_vote [lft; rgt])
  /\ (filled lft = true -> filled rgt = true ->
      (forall b l, In b [lft; rgt] -> near_label b = Some l ->
                   contains (lit "yes") l = false
                   /\ contains (lit "no") l = false) ->
      bool_from_checkboxes_near (Some anchor) m2 = None).
Proof.
  intros Hs.
  assert (Hlen : length (close_boxes anchor (checkboxes m2)) = 2%nat).
  { rewrite <- (sorted_by_length cb_left_x), Hs. reflexivity. }
  assert (Hle : cb_left_x lft <= cb_left_x rgt).
  { pose proof (sorted_by_sorted cb_left_x
                  (close_boxes anchor (checkboxes m2))) as S.
    rewrite Hs in S. inversion S as [|? ? _ F]; subst.
    inversion F; subst. assumption. }
  assert (Hr : bool_from_checkboxes_near (Some anchor) m2
               = if xorb (filled lft) (filled rgt) then Some (filled lft)
                 else label_vote [lft; rgt]).
  { unfold bool_from_checkboxes_near. rewrite Hlen. simpl Nat.leb. cbv iota.
    rewrite Hs. reflexivity. }
  split; [exact Hle|]. rewrite Hr.
  split; [intros ->; reflexivity|].
  split.
  { intros H1 H2. rewrite H1, H2. simpl xorb. cbv iota.
    apply label_vote_unfilled. repeat constructor; assumption. }
  split; [intros H1 H2; rewrite H1, H2; reflexivity|].
  intros H1 H2 Hl. rewrite H1, H2. simpl xorb. cbv iota.
  apply label_vote_unlabelled.
  assert (V : forall b, In b [lft; rgt] ->
                        contains (lit "yes") (label_of b) = false
                        /\ contains (lit "no") (label_of b) = false).
  { intros b Hb. unfold label_of. destruct (near_label b) as [l|] eqn:E.
    - apply (Hl b l Hb E).
    - split; reflexivity. }
  apply Forall_forall. exact V.
Qed.

(** An anchor at height 200..240 with two checkboxes to its right, labelled
    "yes" and "no". *)
Definition anchor_box : rect := (100, 200, 400, 240).

Definition box_at (x : Z) (f : bool) (lab : string) : checkbox :=
  Checkbox (quad_from_xywh x 205 30 30) f (if f then 1 # 2 else 0) (Some (lit lab)).

Definition shapes_of (boxes : list checkbox) : m2_page := M2Page boxes [] [].

Lemma checkbox_pair_resolution_witness :
  bool_from_checkboxes_near (Some anchor_box)
    (shapes_of [box_at 520 false "no"; box_at 450 true "yes"])
  = Some true.
Proof.
  exact (proj1 (proj2 (checkbox_pair_resolution anchor_box
                         (shapes_of [box_at 520 false "no"; box_at 450 true "yes"])
                         (box_at 450 true "yes") (box_at 520 false "no")
                         eq_refl))
               eq_refl).
Defined.

(** C2 as stated fails: two checkboxes in the band, both filled, the left one
    labelled "yes"; the result is true, not null. *)
Lemma checkbox_pair_both_filled_not_null :
  close_boxes anchor_box [box_at 450 true "yes"; box_at 520 true "no"]
  = [box_at 450 true "yes"; box_at 520 true "no"]
  /\ filled (box_at 450 true "yes") = true
  /\ filled (box_at 520 true "no") = true
  /\ bool_from_checkboxes_near (Some anchor_box)
       (shapes_of [box_at 450 true "yes"; box_at 520 true "no"])
     = Some true.
Proof. split; [|split; [|split]]; reflexivity. Qed.

(** ** Yes/No from nearby text (C8) *)

(** A token carries an isolated "yes" (resp. "no"). *)
Definition says_yes (it : item) : bool :=
  found (search false re_yes (normalize (text it))).

Definition says_no (it : item) : bool :=
  found (search false re_no (normalize (text it))).

(** The anchor's line, nearest to [am] among [lines], and the line after
    it. *)
Definition scanned_lines (lines : list line) (am : Z) : list line :=
  match nearest_line am lines with
  | Some i => firstn 2 (skipn i lines)
  | None => []
  end.

Lemma nearest_from_range (am : Z) (lines : list line) :
  forall i idx best j,
    nearest_from am i lines idx best = Some j ->
    idx = Some j \/ (i <= j < i + length lines)%nat.
Proof.
  induction lines as [|ln lines IH]; intros i idx best j H; simpl in H.
  - left. exact H.
  - destruct (Z.abs (l_y ln - am) <? best); apply IH in H; simpl.
    + destruct H as [H|H]; [injection H as <-|]; right; lia.
    + destruct H as [H|H]; [left; exact H | right; lia].
Qed.

Lemma near_lines_window (lines : list line) :
  forall i, (i < length lines)%nat ->
            near_lines lines (Some i) = firstn 2 (skipn i lines).
Proof.
  unfold near_lines.
  induction lines as [|ln lines IH]; intros i Hi; simpl in Hi; [lia|].
  destruct i as [|i].
  - simpl. destruct lines as [|ln' lines]; reflexivity.
  - specialize (IH i ltac:(lia)). simpl nth_error. simpl skipn.
    replace (S i + 1)%nat with (S (i + 1)) by lia. simpl nth_error.
    destruct (nth_error lines i) as [l0|] eqn:E.
    + rewrite <- IH.
      replace (Nat.ltb (S (i + 1)) (length (ln :: lines)))
        with (Nat.ltb (i + 1) (length lines)); [reflexivity|].
      simpl length. destruct (Nat.ltb_spec (i + 1) (length lines));
        destruct (Nat.ltb_spec (S (i + 1)) (S (length lines)));
        try reflexivity; lia.
    + apply nth_error_None in E. lia.
Qed.

Lemma near_lines_scanned (lines : list line) (am : Z) :
  near_lines lines (nearest_line am lines) = scanned_lines lines am.
Proof.
  unfold scanned_lines. destruct (nearest_line am lines) as [i|] eqn:E.
  - apply near_lines_window. unfold nearest_line in E.
    apply nearest_from_range in E. destruct E as [E|E]; [discriminate|lia].
  - reflexivity.
Qed.

Lemma mem_app (x : str) (l1 l2 : list str) :
  mem x (l1 ++ l2) = (mem x l1 || mem x l2)%bool.
Proof. apply existsb_app. Qed.

Lemma mem_yes_harvest (ln : line) :
  mem (lit "yes") (harvest ln) = existsb says_yes (l_items ln)
  /\ mem (lit "no") (harvest ln) = existsb says_no (l_items ln).
Proof.
  unfold harvest. induction (l_items ln) as [|it its [IHy IHn]].
  - split; reflexivity.
  - cbn [flat_map existsb]. rewrite !mem_app, IHy, IHn.
    unfold says_yes, says_no.
    destruct (found (search false re_yes (normalize (text it))));
      destruct (found (search false re_no (normalize (text it))));
      split; reflexivity.
Qed.

Lemma mem_yes_lines (ls : list line) :
  mem (lit "yes") (flat_map harvest ls) = existsb says_yes (flat_map l_items ls)
  /\ mem (lit "no") (flat_map harvest ls) = existsb says_no (flat_map l_items ls).
Proof.
  induction ls as [|ln ls [IHy IHn]].
  - split; reflexivity.
  - cbn [flat_map]. rewrite !mem_app, !existsb_app, IHy, IHn.
    destruct (mem_yes_harvest ln) as [-> ->]. split; reflexivity.
Qed.

(** C8.  Yes/no resolution looks only at the tokens of the anchor's line (the
    line nearest to the anchor's vertical center) and of the next line; it
    returns true when some such token carries an isolated "yes" and none an
    isolated "no", false when some carries "no" and none "yes", and null in
    every other case (both appear, or neither). *)
Theorem yes_no_from_near_text_spec
        (items : list item) (ax1 ay1 ax2 ay2 : Z) (page_w page_h : Z) :
  let lines := group_by_lines items page_h in
  let scanned := flat_map l_items (scanned_lines lines (half (ay1 + ay2))) in
  let yes := existsb says_yes scanned in
  let no := existsb says_no scanned in
  yes_no_from_near_text items (ax1, ay1, ax2, ay2) page_w page_h
  = if (yes && negb no)%bool then Some true
    else if (no && negb yes)%bool then Some false
    else None.
Proof.
  intros lines scanned yes no.
  unfold yes_no_from_near_text. fold lines.
  rewrite near_lines_scanned.
  destruct (mem_yes_lines (scanned_lines lines (half (ay1 + ay2)))) as [Hy Hn].
  fold scanned in Hy, Hn. fold yes in Hy. fold no in Hn.
  destruct (flat_map harvest (scanned_lines lines (half (ay1 + ay2))))
    as [|c cs] eqn:E.
  - cbn in Hy, Hn. rewrite <- Hy, <- Hn. reflexivity.
  - rewrite Hy, Hn. reflexivity.
Qed.

(** ** Whitespace, tokens and [normalize] *)

Definition blank (c : ascii) : Prop := is_space c = true.

Lemma split_ws_aux_nil (s : str) :
  forall cur, split_ws_aux cur s = [] -> cur = [] /\ Forall blank s.
Proof.
  induction s as [|c s IH]; intros cur H; simpl in H.
  - destruct cur; [split; [reflexivity|constructor] | discriminate].
  - destruct (is_space c) eqn:E.
    + destruct cur; [|discriminate].
      destruct (IH [] H) as [_ F]. split; [reflexivity|].
      constructor; assumption.
    + apply IH in H. destruct H as [H _]. discriminate.
Qed.

Lemma tokens_have_ink (s : str) :
  split_ws s <> [] -> exists x, In x s /\ is_space x = false.
Proof.
  induction s as [|c s IH]; intros H.
  - exfalso. apply H. reflexivity.
  - destruct (is_space c) eqn:E.
    + unfold split_ws in *. simpl in H. rewrite E in H.
      destruct (IH H) as [x [Hx Hs]]. exists x. split; [right|]; assumption.
    + exists c. split; [left; reflexivity | exact E].
Qed.

Lemma is_space_lower_char (c : ascii) : is_space (lower_char c) = is_space c.
Proof. destruct c as [[] [] [] [] [] [] [] []]; reflexivity. Qed.

Lemma lstrip_keeps (s : str) (x : ascii) :
  In x s -> is_space x = false -> In x (lstrip s).
Proof.
  induction s as [|c s IH]; simpl; intros H Hx; [exact H|].
  destruct (is_space c) eqn:E.
  - destruct H as [->|H]; [congruence | apply IH; assumption].
  - exact H.
Qed.

Lemma strip_keeps (s : str) (x : ascii) :
  In x s -> is_space x = false -> In x (strip s).
Proof.
  intros H Hx. unfold strip, rstrip.
  apply in_rev. rewrite rev_involutive.
  apply lstrip_keeps; [|exact Hx]. apply -> in_rev.
  apply lstrip_keeps; assumption.
Qed.

(** Where a greedy run over a class ends when nothing follows it in the
    pattern: the run is a prefix of the subject made of class members. *)
Lemma star_c_k_end (test : ascii -> bool) (u : str) :
  forall b m,
    star_c test k_end b u = Some m ->
    exists run, u = run ++ m_after m /\ Forall (fun c => test c = true) run.
Proof.
  induction u as [|x u IH]; intros b m H; simpl in H.
  - injection H as <-. exists []. split; [reflexivity|constructor].
  - destruct (test x) eqn:E.
    + destruct (star_c test k_end (x :: b) u) as [m'|] eqn:E'.
      * injection H as <-. destruct (IH _ _ E') as [run [-> F]].
        exists (x :: run). split; [reflexivity|]. constructor; assumption.
      * injection H as <-. exists []. split; [reflexivity|constructor].
    + injection H as <-. exists []. split; [reflexivity|constructor].
Qed.

Lemma match_ws_plus (b u : str) (m : mstate) :
  match_at false ws_plus b u = Some m ->
  exists run, u = run ++ m_after m /\ Forall blank run.
Proof.
  unfold match_at, ws_plus, plus. simpl.
  destruct u as [|x u]; [discriminate|].
  destruct (is_space x) eqn:E; [|discriminate].
  intros H. apply star_c_k_end in H. destruct H as [run [-> F]].
  exists (x :: run). split; [reflexivity|]. constructor; assumption.
Qed.

(** Replacing whitespace runs keeps every other character. *)
Lemma sub_ws_keeps (repl : rmatch_obj -> str) (x : ascii) (fuel : nat) :
  forall b u,
    (length u < fuel)%nat -> In x u -> is_space x = false ->
    In x (sub_from fuel false ws_plus repl b u).
Proof.
  induction fuel as [|fuel IH]; intros b u Hf Hin Hx; [lia|].
  simpl. destruct (match_at false ws_plus b u) as [m|] eqn:E.
  - destruct (match_ws_plus _ _ _ E) as [run [Hu F]].
    assert (Hm : In x (m_after m)).
    { rewrite Hu in Hin. apply in_app_or in Hin. destruct Hin as [Hr|Hr];
        [|exact Hr].
      rewrite Forall_forall in F. specialize (F x Hr). unfold blank in F.
      congruence. }
    destruct (Nat.ltb_spec (length (m_after m)) (length u)).
    + apply in_or_app. right. apply IH; [lia | exact Hm | exact Hx].
    + destruct u as [|c u]; [destruct Hin|].
      apply in_or_app. right. destruct Hin as [->|Hin]; [left; reflexivity|].
      right. apply IH; [simpl in Hf; lia | exact Hin | exact Hx].
  - destruct u as [|c u]; [destruct Hin|].
    destruct Hin as [->|Hin]; [left; reflexivity|].
    right. apply IH; [simpl in Hf; lia | exact Hin | exact Hx].
Qed.

Lemma normalize_keeps_ink (s : str) :
  split_ws s <> [] -> normalize s <> [].
Proof.
  intros H. destruct (tokens_have_ink s H) as [x [Hx Hs]].
  assert (In (lower_char x) (normalize s)) as Hn.
  { unfold normalize. apply strip_keeps; [|rewrite is_space_lower_char; exact Hs].
    unfold sub_const, sub. apply sub_ws_keeps.
    - lia.
    - unfold lower. apply in_map. exact Hx.
    - rewrite is_space_lower_char. exact Hs. }
  intros E. rewrite E in Hn. destruct Hn.
Qed.

Lemma normalize_nil : normalize [] = [].
Proof. reflexivity. Qed.

(** ** The claimant/spouse post-fix (C10) *)

Lemma postfix_condition (c s : str) :
  normalize c = normalize s -> split_ws c <> [] ->
  (truthy (Some c) && truthy (Some s)
   && str_eqb (normalize c) (normalize s))%bool = true.
Proof.
  intros E H.
  assert (Hc : c <> []) by (intros ->; apply H; reflexivity).
  assert (Hs : s <> []).
  { intros ->. rewrite normalize_nil in E.
    exact (normalize_keeps_ink c H E). }
  destruct c; [congruence|]. destruct s; [congruence|].
  simpl truthy. rewrite E, str_eqb_refl. reflexivity.
Qed.

(** C10.  When claimant_name and spouse_name are both non-null and equal
    after normalization: if the claimant value has exactly 3
    whitespace-separated tokens, claimant_name becomes the first two and
    spouse_name the third; if it has exactly 4, claimant_name becomes the
    first two and spouse_name the last two; for any other number of tokens
    both are left as they are. *)
Theorem postfix_claimant_spouse_spec (c s : str) :
  normalize c = normalize s ->
  (forall t1 t2 t3,
      split_ws c = [t1; t2; t3] ->
      postfix_claimant_spouse (Some c) (Some s)
      = (Some (t1 ++ lit " " ++ t2), Some t3))
  /\ (forall t1 t2 t3 t4,
         split_ws c = [t1; t2; t3; t4] ->
         postfix_claimant_spouse (Some c) (Some s)
         = (Some (t1 ++ lit " " ++ t2), Some (t3 ++ lit " " ++ t4)))
  /\ (length (split_ws c) <> 3%nat -> length (split_ws c) <> 4%nat ->
      postfix_claimant_spouse (Some c) (Some s) = (Some c, Some s)).
Proof.
  intros E. split; [|split].
  - intros t1 t2 t3 H. unfold postfix_claimant_spouse.
    rewrite postfix_condition by (rewrite ?H; congruence).
    rewrite H. reflexivity.
  - intros t1 t2 t3 t4 H. unfold postfix_claimant_spouse.
    rewrite postfix_condition by (rewrite ?H; congruence).
    rewrite H. reflexivity.
  - intros H3 H4. unfold postfix_claimant_spouse.
    destruct (_ && _ && _)%bool; [|reflexivity].
    destruct (Nat.eqb_spec (length (split_ws c)) 3); [congruence|].
    destruct (Nat.eqb_spec (length (split_ws c)) 4); [congruence|].
    reflexivity.
Qed.

Lemma postfix_claimant_spouse_witness :
  postfix_claimant_spouse (Some (lit "nek ram sita")) (Some (lit "nek ram sita"))
  = (Some (lit "nek ram"), Some (lit "sita"))
  /\ postfix_claimant_spouse (Some (lit "nek ram")) (Some (lit "nek ram"))
     = (Some (lit "nek ram"), Some (lit "nek ram")).
Proof.
  split.
  - exact (proj1 (postfix_claimant_spouse_spec (lit "nek ram sita")
                    (lit "nek ram sita") eq_refl)
                 (lit "nek") (lit "ram") (lit "sita") eq_refl).
  - refine (proj2 (proj2 (postfix_claimant_spouse_spec (lit "nek ram")
                            (lit "nek ram") eq_refl)) _ _);
      vm_compute; discriminate.
Defined.

(** ** Line grouping (C5) *)

Lemma quot2_between (a b p q : Z) :
  a <= p <= b -> a <= q <= b -> a <= Z.quot (p + q) 2 <= b.
Proof.
  intros Hp Hq. Z.to_euclidean_division_equations. lia.
Qed.

Lemma median_int_between (a b : Z) (vals : list Z) :
  vals <> [] ->
  Forall (fun v => a <= v <= b) vals ->
  a <= median_int vals <= b.
Proof.
  intros Hne F. unfold median_int.
  set (s := sorted_by (fun z => z) vals).
  assert (Fs : forall v, In v s -> a <= v <= b).
  { intros v Hv. rewrite Forall_forall in F. apply F.
    apply (Permutation_in v (Permutation_sym (sorted_by_perm (fun z => z) vals))).
    exact Hv. }
  assert (Hn : (0 < length s)%nat).
  { unfold s. rewrite sorted_by_length. destruct vals; [congruence|simpl; lia]. }
  assert (Hh : (length s / 2 < length s)%nat)
    by (apply Nat.div_lt; lia).
  destruct (Nat.even (length s)).
  - apply quot2_between; apply Fs, nth_In; lia.
  - apply Fs, nth_In; lia.
Qed.

Lemma list_bounded_above (vals : list Z) :
  exists b, Forall (fun v => v <= b) vals.
Proof.
  induction vals as [|x vals [b F]].
  - exists 0. constructor.
  - exists (Z.max x b). constructor; [lia|].
    eapply Forall_impl; [|exact F]. intros; simpl in *; lia.
Qed.

Lemma median_int_above (lo : Z) (vals : list Z) :
  vals <> [] -> Forall (fun v => lo < v) vals -> lo < median_int vals.
Proof.
  intros Hne F. destruct (list_bounded_above vals) as [b B].
  assert (lo + 1 <= median_int vals <= b); [|lia].
  apply median_int_between; [exact Hne|].
  rewrite Forall_forall in *. intros v Hv.
  specialize (F v Hv). specialize (B v Hv). simpl in *. lia.
Qed.

Lemma median_int_single (y : Z) : median_int [y] = y.
Proof. reflexivity. Qed.

(** *** The lines partition the tokens *)

Lemma place_perm (tol : Z) (it : item) (y : Z) (lines : list line) :
  Permutation (flat_map l_items (place tol it y lines))
              (it :: flat_map l_items lines).
Proof.
  induction lines as [|ln lines IH]; simpl.
  - apply Permutation_refl.
  - destruct (Z.abs (l_y ln - y) <=? tol); simpl.
    + rewrite <- app_assoc. simpl.
      apply Permutation_sym.
      apply (Permutation_middle (l_items ln) (flat_map l_items lines) it).
    + eapply perm_trans; [apply Permutation_app_head, IH|].
      apply Permutation_sym, Permutation_middle.
Qed.

Lemma place_all_perm (tol : Z) (its : list item) :
  forall lines,
    Permutation
      (flat_map l_items
         (fold_left (fun ls it => place tol it (mid_y it) ls) its lines))
      (its ++ flat_map l_items lines).
Proof.
  induction its as [|it its IH]; intros lines; simpl.
  - apply Permutation_refl.
  - eapply perm_trans; [apply IH|].
    eapply perm_trans; [apply Permutation_app_head, place_perm|].
    apply Permutation_sym, Permutation_middle.
Qed.

Lemma sort_lines_perm (lines : list line) :
  Permutation (flat_map l_items (map sort_line lines))
              (flat_map l_items lines).
Proof.
  induction lines as [|ln lines IH]; simpl.
  - apply perm_nil.
  - apply Permutation_app; [|exact IH].
    apply Permutation_sym, sorted_by_perm.
Qed.

Lemma group_by_lines_perm (items : list item) (page_h : Z) :
  Permutation (flat_map l_items (group_by_lines items page_h)) items.
Proof.
  unfold group_by_lines. destruct items as [|it items]; [apply perm_nil|].
  eapply perm_trans; [apply sort_lines_perm|].
  unfold place_all.
  eapply perm_trans; [apply place_all_perm|].
  simpl flat_map. rewrite app_nil_r.
  apply Permutation_sym, sorted_by_perm.
Qed.

(** *** The line centers increase *)

(** The state of the grouping loop while tokens arrive in the order of
    their centers: each line's center is the median of its members' centers,
    which all lie above [lo], and the members of the next line lie more than
    the tolerance above this line's center. *)
Fixpoint chain (tol : Z) (lo : Z) (lines : list line) : Prop :=
  match lines with
  | [] => True
  | ln :: rest =>
      l_y_vals ln <> []
      /\ Forall (fun v => lo < v) (l_y_vals ln)
      /\ l_y ln = median_int (l_y_vals ln)
      /\ chain tol (l_y ln + tol) rest
  end.

Definition below (c : Z) (lines : list line) : Prop :=
  Forall (fun ln => Forall (fun v => v <= c) (l_y_vals ln)) lines.

Lemma below_weaken (c c' : Z) (lines : list line) :
  c <= c' -> below c lines -> below c' lines.
Proof.
  intros H B. unfold below in *.
  eapply Forall_impl; [|exact B]. intros ln F.
  eapply Forall_impl; [|exact F]. intros; simpl in *; lia.
Qed.

Lemma line_center_le (tol lo c : Z) (ln : line) (rest : list line) :
  chain tol lo (ln :: rest) -> below c (ln :: rest) ->
  lo < l_y ln <= c.
Proof.
  intros [Hne [Hlo [Hy _]]] B. inversion B as [|? ? Hc _]; subst.
  rewrite Hy.
  assert (lo + 1 <= median_int (l_y_vals ln) <= c); [|lia].
  apply median_int_between; [exact Hne|].
  rewrite Forall_forall in *. intros v Hv.
  specialize (Hlo v Hv). specialize (Hc v Hv). simpl in *. lia.
Qed.

Lemma place_chain (tol y : Z) (it : item) (lines : list line) :
  0 <= tol ->
  forall lo c,
    chain tol lo lines -> below c lines -> c <= y -> lo < y ->
    chain tol lo (place tol it y lines) /\ below y (place tol it y lines).
Proof.
  intros Htol. induction lines as [|ln rest IH]; intros lo c Hc Hb Hcy Hlo.
  - simpl. split.
    + repeat split; [discriminate | repeat constructor; exact Hlo].
    + repeat constructor. simpl. lia.
  - pose proof (line_center_le _ _ _ _ _ Hc Hb) as Hy.
    simpl. destruct (Z.abs (l_y ln - y) <=? tol) eqn:E.
    + apply Z.leb_le in E.
      assert (rest = []) as ->.
      { destruct rest as [|ln' rest]; [reflexivity|exfalso].
        destruct Hc as [_ [_ [_ Hc']]].
        inversion Hb as [|? ? _ Hb']; subst.
        pose proof (line_center_le _ _ _ _ _ Hc' Hb'). lia. }
      destruct Hc as [Hne [Hl [_ _]]]. inversion Hb as [|? ? Hb1 _]; subst.
      split.
      * simpl. repeat split.
        -- destruct (l_y_vals ln); discriminate.
        -- apply Forall_app. split; [exact Hl | repeat constructor; exact Hlo].
      * repeat constructor. simpl. apply Forall_app. split.
        -- eapply Forall_impl; [|exact Hb1]. intros; simpl in *; lia.
        -- repeat constructor. lia.
    + apply Z.leb_gt in E.
      destruct Hc as [Hne [Hl [Hm Hc']]]. inversion Hb as [|? ? Hb1 Hb']; subst.
      destruct (IH (l_y ln + tol) c Hc' Hb' Hcy ltac:(lia)) as [C B].
      split.
      * simpl. repeat split; assumption.
      * constructor; [|exact B].
        eapply Forall_impl; [|exact Hb1]. intros; simpl in *; lia.
Qed.

(** The tokens arrive in the order of their centers. *)
Lemma place_all_chain (tol : Z) (its : list item) :
  0 <= tol ->
  StronglySorted (key_le mid_y) its ->
  forall lines lo c,
    chain tol lo lines -> below c lines ->
    Forall (fun it => c <= mid_y it /\ lo < mid_y it) its ->
    chain tol lo (fold_left (fun ls it => place tol it (mid_y it) ls) its lines).
Proof.
  intros Htol S. induction S as [|it its S IH F];
    intros lines lo c Hc Hb Hall; simpl.
  - exact Hc.
  - inversion Hall as [|? ? [H1 H2] Hall']; subst.
    destruct (place_chain tol (mid_y it) it lines Htol lo c Hc Hb H1 H2)
      as [C B].
    apply (IH _ lo (mid_y it) C B).
    rewrite Forall_forall in *. intros it' Hin.
    specialize (F it' Hin). specialize (Hall' it' Hin). unfold key_le in F.
    lia.
Qed.

Lemma chain_centers (tol : Z) (lines : list line) :
  0 <= tol ->
  forall lo, chain tol lo lines ->
             Forall (fun y => lo < y) (map l_y lines)
             /\ StronglySorted Z.lt (map l_y lines).
Proof.
  intros Htol. induction lines as [|ln rest IH]; intros lo Hc; simpl.
  - split; constructor.
  - pose proof Hc as [Hne [Hl [Hm Hc']]].
    destruct (IH _ Hc') as [F S].
    assert (lo < l_y ln) by (rewrite Hm; apply median_int_above; assumption).
    split.
    + constructor; [assumption|].
      eapply Forall_impl; [|exact F]. intros; simpl in *; lia.
    + constructor; [exact S|].
      eapply Forall_impl; [|exact F]. intros; simpl in *; lia.
Qed.

Lemma centers_bounded_below (its : list item) :
  exists lo, Forall (fun it => lo + 1 <= mid_y it /\ lo < mid_y it) its.
Proof.
  induction its as [|it its [lo F]].
  - exists 0. constructor.
  - exists (Z.min lo (mid_y it - 1)). constructor; [lia|].
    eapply Forall_impl; [|exact F]. intros; simpl in *; lia.
Qed.

Lemma y_tol_of_nonneg (page_h : Z) : 0 <= y_tol_of page_h.
Proof. unfold y_tol_of. lia. Qed.

Lemma place_all_centers (tol : Z) (its : list item) :
  0 <= tol ->
  StronglySorted Z.lt (map l_y (place_all tol (sorted_by mid_y its))).
Proof.
  intros Htol.
  destruct (centers_bounded_below (sorted_by mid_y its)) as [lo F].
  apply (chain_centers tol _ Htol lo).
  unfold place_all.
  apply (place_all_chain tol _ Htol (sorted_by_sorted mid_y its) [] lo (lo + 1)).
  - exact I.
  - constructor.
  - exact F.
Qed.

Lemma sort_lines_centers (lines : list line) :
  map l_y (map sort_line lines) = map l_y lines.
Proof. rewrite map_map. reflexivity. Qed.

Lemma strongly_sorted_lt_le (l : list Z) :
  StronglySorted Z.lt l -> StronglySorted Z.le l.
Proof.
  induction 1 as [|x l S IH F]; constructor; [exact IH|].
  eapply Forall_impl; [|exact F]. intros; simpl in *; lia.
Qed.

(** C5.  For every token list and page height, the lines of
    [group_by_lines] partition the tokens (the lines' tokens, put together,
    are the input tokens, each as many times as it was given), the line
    centers are non-decreasing in output order, and within each line the
    tokens are non-decreasing in the left edge of their box. *)
Theorem group_by_lines_partition (items : list item) (page_h : Z) :
  Permutation (flat_map l_items (group_by_lines items page_h)) items
  /\ StronglySorted Z.le (map l_y (group_by_lines items page_h))
  /\ Forall (fun ln => StronglySorted (key_le left_x) (l_items ln))
            (group_by_lines items page_h).
Proof.
  split; [apply group_by_lines_perm|].
  unfold group_by_lines. destruct items as [|it items].
  - split; constructor.
  - split.
    + rewrite sort_lines_centers. apply strongly_sorted_lt_le.
      apply place_all_centers, y_tol_of_nonneg.
    + apply Forall_forall. intros ln Hln. apply in_map_iff in Hln.
      destruct Hln as [ln0 [<- _]]. simpl. apply sorted_by_sorted.
Qed.

Lemma exclusivity_never_both_true_witness :
  (snd (extract_st_otfd meta_a4 page_st_yes no_shapes) = Some false
   \/ snd (extract_st_otfd meta_a4 page_st_yes no_shapes) = None)
  /\ merge_document [page_st_true; page_otfd_true] otfd <> VBool true.
Proof.
  destruct (exclusivity_never_both_true meta_a4 page_st_yes no_shapes
              [page_st_true; page_otfd_true]) as [H1 H2].
  split.
  - apply H1. vm_compute. reflexivity.
  - apply H2. reflexivity.
Defined.

(** ** Facts on the matcher *)

Lemma add_group_some (n : nat) (g : str) (m : option mstate) :
  add_group n g m <> None <-> m <> None.
Proof. destruct m; simpl; split; congruence. Qed.

Lemma add_group_after (n : nat) (g : str) (m : option mstate) (st : mstate) :
  add_group n g m = Some st ->
  exists st', m = Some st' /\ m_after st' = m_after st.
Proof.
  destruct m as [st'|]; simpl; [|discriminate].
  intros H. injection H as <-. exists st'. split; reflexivity.
Qed.

(** Patterns without [\b] and [$]: whether they match does not depend on the
    text around the part they read. *)
Fixpoint plain (r : re) : bool :=
  match r with
  | Eps | Lit _ | Cls _ | Star _ => true
  | Cat r1 r2 | Alt r1 r2 => (plain r1 && plain r2)%bool
  | Opt r1 => plain r1
  | Wb | Eos => false
  | Grp _ r1 => plain r1
  end.

(** Patterns every match of which reads at least one character. *)
Fixpoint consumes (r : re) : bool :=
  match r with
  | Lit _ | Cls _ => true
  | Cat r1 r2 => (consumes r1 || consumes r2)%bool
  | Alt r1 r2 => (consumes r1 && consumes r2)%bool
  | Grp _ r1 => consumes r1
  | Eps | Opt _ | Star _ | Wb | Eos => false
  end.

Section Embedding.

(** A subject [W] embedded in a larger one: [rl] is the text before it,
    reversed, and [E] the text after it. *)
Variables (W rl E : str).

Definition carries (k k' : kont) : Prop :=
  forall b u, rev b ++ u = W -> k b u <> None -> k' (b ++ rl) (u ++ E) <> None.

Lemma star_c_zero (test : ascii -> bool) (k : kont) (b u : str) :
  k b u <> None -> star_c test k b u <> None.
Proof.
  intros H. destruct u as [|x u]; simpl; [exact H|].
  destruct (test x); [|exact H].
  destruct (star_c test k (x :: b) u); [discriminate|exact H].
Qed.

Lemma star_c_embed (test : ascii -> bool) (k k' : kont) :
  carries k k' ->
  forall u b, rev b ++ u = W ->
              star_c test k b u <> None ->
              star_c test k' (b ++ rl) (u ++ E) <> None.
Proof.
  intros Hk. induction u as [|x u IH]; intros b Hw H.
  - simpl in H. apply star_c_zero. apply (Hk b [] Hw H).
  - simpl in H. simpl. destruct (test x).
    + destruct (star_c test k (x :: b) u) eqn:E1.
      * assert (star_c test k' ((x :: b) ++ rl) (u ++ E) <> None) as H'.
        { apply IH; [|rewrite E1; discriminate].
          simpl. rewrite <- app_assoc. exact Hw. }
        simpl in H'. destruct (star_c test k' (x :: b ++ rl) (u ++ E));
          [discriminate|congruence].
      * destruct (star_c test k' (x :: b ++ rl) (u ++ E)); [discriminate|].
        apply (Hk b (x :: u) Hw H).
    + apply (Hk b (x :: u) Hw H).
Qed.

Lemma rmatch_embed (ic : bool) (r : re) :
  plain r = true ->
  forall k k' b u,
    carries k k' -> rev b ++ u = W ->
    rmatch ic r b u k <> None ->
    rmatch ic r (b ++ rl) (u ++ E) k' <> None.
Proof.
  induction r as [|c|p|r1 IH1 r2 IH2|r1 IH1 r2 IH2|r1 IH1|p| | |n r1 IH1];
    intros Hp k k' b u Hk Hw H; simpl in Hp; try discriminate.
  - apply (Hk b u Hw H).
  - simpl in *. destruct u as [|x u]; [congruence|]. simpl.
    destruct (chr_test ic c x); [|congruence].
    apply (Hk (x :: b) u); [|exact H].
    simpl. rewrite <- app_assoc. exact Hw.
  - simpl in *. destruct u as [|x u]; [congruence|]. simpl.
    destruct (cls_test ic p x); [|congruence].
    apply (Hk (x :: b) u); [|exact H].
    simpl. rewrite <- app_assoc. exact Hw.
  - apply andb_true_iff in Hp. destruct Hp as [Hp1 Hp2]. simpl in *.
    apply (IH1 Hp1 (fun b' u' => rmatch ic r2 b' u' k)); [|exact Hw|exact H].
    intros b' u' Hw' H'. apply (IH2 Hp2 k); assumption.
  - apply andb_true_iff in Hp. destruct Hp as [Hp1 Hp2]. simpl in *.
    destruct (rmatch ic r1 b u k) eqn:E1.
    + assert (rmatch ic r1 (b ++ rl) (u ++ E) k' <> None) as H'
          by (apply (IH1 Hp1 k); [assumption|assumption|rewrite E1; discriminate]).
      destruct (rmatch ic r1 (b ++ rl) (u ++ E) k'); [discriminate|congruence].
    + destruct (rmatch ic r1 (b ++ rl) (u ++ E) k'); [discriminate|].
      apply (IH2 Hp2 k); assumption.
  - simpl in *. destruct (rmatch ic r1 b u k) eqn:E1.
    + assert (rmatch ic r1 (b ++ rl) (u ++ E) k' <> None) as H'
          by (apply (IH1 Hp k); [assumption|assumption|rewrite E1; discriminate]).
      destruct (rmatch ic r1 (b ++ rl) (u ++ E) k'); [discriminate|congruence].
    + destruct (rmatch ic r1 (b ++ rl) (u ++ E) k'); [discriminate|].
      apply (Hk b u Hw H).
  - simpl in *. apply star_c_embed with (k := k); assumption.
  - simpl in *.
    apply (IH1 Hp (fun b' u' =>
                     add_group n (firstn (length u - length u') u) (k b' u')));
      [|exact Hw|exact H].
    intros b' u' Hw' H'. apply add_group_some. apply add_group_some in H'.
    apply (Hk b' u' Hw' H').
Qed.

End Embedding.

(** Where a match ends. *)
Section Consumption.

Variable P : str -> Prop.

Lemma star_c_after (test : ascii -> bool) (k : kont) (n : nat) :
  (forall b' u' m', (length u' <= n)%nat -> k b' u' = Some m' -> P (m_after m')) ->
  forall u b m, (length u <= n)%nat ->
                star_c test k b u = Some m -> P (m_after m).
Proof.
  intros Hk. induction u as [|x u IH]; intros b m Hn H; simpl in H.
  - apply (Hk b [] m); [simpl; lia | exact H].
  - destruct (test x).
    + destruct (star_c test k (x :: b) u) eqn:E1.
      * injection H as <-. apply (IH (x :: b)); [simpl in Hn; lia | exact E1].
      * apply (Hk b (x :: u) m Hn H).
    + apply (Hk b (x :: u) m Hn H).
Qed.

Lemma rmatch_after_le (ic : bool) (r : re) :
  forall k b u m (n : nat),
    (forall b' u' m', (length u' <= n)%nat -> k b' u' = Some m' -> P (m_after m')) ->
    (length u <= n)%nat ->
    rmatch ic r b u k = Some m -> P (m_after m).
Proof.
  induction r as [|c|p|r1 IH1 r2 IH2|r1 IH1 r2 IH2|r1 IH1|p| | |g r1 IH1];
    intros k b u m n Hk Hn H; simpl in H.
  - apply (Hk b u m Hn H).
  - destruct u as [|x u]; [discriminate|].
    destruct (chr_test ic c x); [|discriminate].
    apply (Hk (x :: b) u m); [simpl in Hn; lia | exact H].
  - destruct u as [|x u]; [discriminate|].
    destruct (cls_test ic p x); [|discriminate].
    apply (Hk (x :: b) u m); [simpl in Hn; lia | exact H].
  - apply (IH1 _ b u m n) in H; [exact H| |exact Hn].
    intros b' u' m' Hn' H'. apply (IH2 k b' u' m' n); assumption.
  - destruct (rmatch ic r1 b u k) eqn:E1.
    + injection H as <-. apply (IH1 k b u _ n); assumption.
    + apply (IH2 k b u m n); assumption.
  - destruct (rmatch ic r1 b u k) eqn:E1.
    + injection H as <-. apply (IH1 k b u _ n); assumption.
    + apply (Hk b u m Hn H).
  - apply (star_c_after _ k n Hk u b m Hn H).
  - destruct (xorb _ _); [|discriminate]. apply (Hk b u m Hn H).
  - destruct u as [|x [|y u]]; try discriminate.
    + apply (Hk b [] m Hn H).
    + destruct (eqc x _); [|discriminate]. apply (Hk b [x] m Hn H).
  - apply (IH1 _ b u m n) in H; [exact H| |exact Hn].
    intros b' u' m' Hn' H'. apply add_group_after in H'.
    destruct H' as [st' [H' <-]]. apply (Hk b' u' st' Hn' H').
Qed.

Lemma rmatch_after_lt (ic : bool) (r : re) :
  consumes r = true ->
  forall k b u m,
    (forall b' u' m', (length u' < length u)%nat -> k b' u' = Some m' ->
                      P (m_after m')) ->
    rmatch ic r b u k = Some m -> P (m_after m).
Proof.
  induction r as [|c|p|r1 IH1 r2 IH2|r1 IH1 r2 IH2|r1 IH1|p| | |g r1 IH1];
    intros Hc k b u m Hk H; simpl in Hc; try discriminate; simpl in H.
  - destruct u as [|x u]; [discriminate|].
    destruct (chr_test ic c x); [|discriminate].
    apply (Hk (x :: b) u m); [simpl; lia | exact H].
  - destruct u as [|x u]; [discriminate|].
    destruct (cls_test ic p x); [|discriminate].
    apply (Hk (x :: b) u m); [simpl; lia | exact H].
  - destruct (consumes r1) eqn:C1.
    + apply (IH1 eq_refl _ b u m) in H; [exact H|].
      intros b' u' m' Hn' H'.
      apply (rmatch_after_le ic r2 k b' u' m' (length u')); [|lia|exact H'].
      intros b2 u2 m2 Hn2 H2. apply (Hk b2 u2 m2); [lia|exact H2].
    + simpl in Hc.
      apply (rmatch_after_le ic r1 _ b u m (length u)) in H; [exact H| |lia].
      intros b' u' m' Hn' H'.
      apply (IH2 Hc k b' u' m'); [|exact H'].
      intros b2 u2 m2 Hn2 H2. apply (Hk b2 u2 m2); [lia|exact H2].
  - apply andb_true_iff in Hc. destruct Hc as [C1 C2].
    destruct (rmatch ic r1 b u k) eqn:E1.
    + injection H as <-. apply (IH1 C1 k b u); assumption.
    + apply (IH2 C2 k b u m); assumption.
  - apply (IH1 Hc _ b u m) in H; [exact H|].
    intros b' u' m' Hn' H'. apply add_group_after in H'.
    destruct H' as [st' [H' <-]]. apply (Hk b' u' st' Hn' H').
Qed.

End Consumption.

(** *** [search] finds the leftmost match *)

Lemma search_from_none (ic : bool) (r : re) (u : str) :
  forall b, search_from ic r b u = None ->
            forall pre post, u = pre ++ post ->
                             match_at ic r (rev pre ++ b) post = None.
Proof.
  induction u as [|x u IH]; intros b H pre post Hu; simpl in H.
  - destruct pre; [|discriminate]. simpl in Hu. subst post. simpl.
    destruct (match_at ic r b []); [discriminate|reflexivity].
  - destruct (match_at ic r b (x :: u)) eqn:E1; [discriminate|].
    destruct pre as [|y pre]; simpl in Hu.
    + subst post. exact E1.
    + injection Hu as <- ->. simpl. rewrite <- app_assoc.
      apply (IH (x :: b) H pre post eq_refl).
Qed.

Lemma search_from_some (ic : bool) (r : re) (u : str) :
  forall b mo,
    search_from ic r b u = Some mo ->
    exists pre,
      u = pre ++ mo_start_after mo
      /\ mo_start_before mo = rev pre ++ b
      /\ match_at ic r (mo_start_before mo) (mo_start_after mo) = Some (mo_end mo)
      /\ forall p1 p2, pre = p1 ++ p2 -> p2 <> [] ->
                       match_at ic r (rev p1 ++ b) (p2 ++ mo_start_after mo) = None.
Proof.
  induction u as [|x u IH]; intros b mo H; simpl in H.
  - destruct (match_at ic r b []) eqn:E1; [|discriminate].
    injection H as <-. exists []. simpl. repeat split; try assumption.
    intros p1 p2 Hp Hne. destruct p1; destruct p2; try discriminate. congruence.
  - destruct (match_at ic r b (x :: u)) eqn:E1.
    + injection H as <-. exists []. simpl. repeat split; try assumption.
      intros p1 p2 Hp Hne. destruct p1; destruct p2; try discriminate. congruence.
    + destruct (IH (x :: b) mo H) as [pre [Hu [Hb [Hm Hfirst]]]].
      exists (x :: pre). simpl. rewrite <- app_assoc. simpl.
      repeat split; try assumption; [congruence|].
      intros p1 p2 Hp Hne. destruct p1 as [|y p1]; simpl in Hp.
      * subst p2. simpl. rewrite <- Hu. exact E1.
      * injection Hp as <- ->. simpl. rewrite <- app_assoc. simpl.
        apply Hfirst; [reflexivity|exact Hne].
Qed.

(** *** [strip] *)

Definition no_lead (s : str) : Prop :=
  match s with c :: _ => is_space c = false | [] => True end.

Lemma lstrip_split (s : str) :
  exists lead, s = lead ++ lstrip s /\ Forall blank lead.
Proof.
  induction s as [|c s [lead [Hs F]]]; simpl.
  - exists []. split; [reflexivity|constructor].
  - destruct (is_space c) eqn:E.
    + exists (c :: lead). split; [simpl; congruence|].
      constructor; assumption.
    + exists []. split; [reflexivity|constructor].
Qed.

Lemma lstrip_no_lead (s : str) : no_lead (lstrip s).
Proof.
  induction s as [|c s IH]; simpl; [exact I|].
  destruct (is_space c) eqn:E; [exact IH|exact E].
Qed.

Lemma lstrip_fixed (s : str) : no_lead s -> lstrip s = s.
Proof. destruct s as [|c s]; simpl; [reflexivity|]. intros ->. reflexivity. Qed.

Lemma rstrip_split (s : str) :
  exists trail, s = rstrip s ++ trail /\ Forall blank trail.
Proof.
  unfold rstrip. destruct (lstrip_split (rev s)) as [lead [Hs F]].
  exists (rev lead). split.
  - rewrite <- rev_app_distr, <- Hs, rev_involutive. reflexivity.
  - apply Forall_rev. exact F.
Qed.

Lemma rstrip_no_lead (s : str) : no_lead s -> no_lead (rstrip s).
Proof.
  intros H. destruct (rstrip_split s) as [trail [Hs _]].
  destruct (rstrip s) as [|c r]; [exact I|].
  rewrite Hs in H. exact H.
Qed.

Lemma rstrip_idem (s : str) : rstrip (rstrip s) = rstrip s.
Proof.
  unfold rstrip. rewrite rev_involutive.
  rewrite (lstrip_fixed _ (lstrip_no_lead (rev s))). reflexivity.
Qed.

Lemma strip_idem (s : str) : strip (strip s) = strip s.
Proof.
  unfold strip.
  rewrite (lstrip_fixed (rstrip (lstrip s))).
  - apply rstrip_idem.
  - apply rstrip_no_lead, lstrip_no_lead.
Qed.

Lemma strip_split (s : str) :
  exists lead trail,
    s = lead ++ strip s ++ trail /\ Forall blank lead /\ Forall blank trail.
Proof.
  destruct (lstrip_split s) as [lead [Hs F]].
  destruct (rstrip_split (lstrip s)) as [trail [Hr G]].
  exists lead, trail. unfold strip. rewrite <- Hr. auto.
Qed.

Lemma blank_not_word (c : ascii) : is_space c = true -> is_word c = false.
Proof.
  destruct c as [[] [] [] [] [] [] [] []]; intros H;
    first [reflexivity | discriminate H].
Qed.

Lemma blanks_not_word_hd (s : str) : Forall blank s -> is_word_hd s = false.
Proof.
  intros F. destruct F as [|c s Hc _]; [reflexivity|].
  simpl. apply blank_not_word, Hc.
Qed.

Lemma is_word_hd_app (s t : str) :
  is_word_hd (s ++ t) = match s with [] => is_word_hd t | _ => is_word_hd s end.
Proof. destruct s; reflexivity. Qed.

(** ** Stop-label cut (C9) *)

Lemma stop_body_plain : plain stop_body = true.
Proof. reflexivity. Qed.

Lemma stop_consumes : consumes STOP_LABEL_PAT = true.
Proof. reflexivity. Qed.

Lemma stop_body_needs_char (b : str) (k : kont) :
  rmatch true stop_body b [] k = None.
Proof. reflexivity. Qed.

(** The end of [STOP_LABEL_PAT] once the alternation has matched: the group
    is recorded and the closing [\b] tested. *)
Definition stop_tail (u0 : str) : kont :=
  fun b' u' =>
    add_group 1 (firstn (length u0 - length u') u0)
      (rmatch true Wb b' u' k_end).

Lemma stop_match_unfold (b u : str) :
  match_at true STOP_LABEL_PAT b u
  = if xorb (is_word_hd b) (is_word_hd u)
    then rmatch true stop_body b u (stop_tail u)
    else None.
Proof. reflexivity. Qed.

(** A match of the stop pattern inside [W] is a match at the same place of
    any text that surrounds [W] with whitespace on the left and, on the
    right, with text that makes no word continue past the end of [W]. *)
Lemma stop_embed (W lead E : str) :
  Forall blank lead ->
  (is_word_hd (rev W) = true -> is_word_hd E = false) ->
  forall w1 w2,
    W = w1 ++ w2 ->
    match_at true STOP_LABEL_PAT (rev w1) w2 <> None ->
    match_at true STOP_LABEL_PAT (rev (lead ++ w1)) (w2 ++ E) <> None.
Proof.
  intros Hlead Hedge w1 w2 HW H.
  assert (Hl : forall b, is_word_hd (b ++ rev lead) = is_word_hd b).
  { intros b. rewrite is_word_hd_app. destruct b; [|reflexivity].
    apply blanks_not_word_hd, Forall_rev, Hlead. }
  rewrite stop_match_unfold in *.
  destruct w2 as [|x w2].
  { destruct (xorb _ _); [|congruence].
    rewrite stop_body_needs_char in H. congruence. }
  rewrite rev_app_distr, Hl. simpl app.
  change (is_word_hd (x :: w2 ++ E)) with (is_word_hd (x :: w2)).
  destruct (xorb (is_word_hd (rev w1)) (is_word_hd (x :: w2))); [|congruence].
  apply (rmatch_embed W (rev lead) E true stop_body stop_body_plain
           (stop_tail (x :: w2)) (stop_tail (x :: w2 ++ E))
           (rev w1) (x :: w2)); [| |exact H].
  - intros b' u' Hw' H'. unfold stop_tail in *.
    apply add_group_some. apply add_group_some in H'.
    simpl in *. rewrite Hl.
    destruct (xorb (is_word_hd b') (is_word_hd u')) eqn:X; [|congruence].
    rewrite is_word_hd_app. destruct u' as [|y u'].
    + rewrite app_nil_r in Hw'. simpl in X. rewrite xorb_false_r in X.
      assert (is_word_hd (rev W) = true) as Hlast
          by (rewrite <- Hw', rev_involutive; exact X).
      rewrite (Hedge Hlast), X. simpl. discriminate.
    + rewrite X. discriminate.
  - rewrite rev_involutive. symmetry. exact HW.
Qed.

(** The text [cut_at_next_label] strips: the part before the first
    occurrence of a stop label, or the whole text. *)
Definition before_stop (t : str) : str :=
  match search true STOP_LABEL_PAT t with
  | Some mo => before mo
  | None => t
  end.

Lemma stop_match_shorter (b u : str) (m : mstate) :
  match_at true STOP_LABEL_PAT b u = Some m ->
  (length (m_after m) < length u)%nat.
Proof.
  intros H.
  apply (rmatch_after_lt (fun a => (length a < length u)%nat) true
           STOP_LABEL_PAT stop_consumes k_end b u m); [|exact H].
  intros b' u' m' Hlt Hk. injection Hk as <-. exact Hlt.
Qed.

Lemma cut_at_next_label_unfold (t : str) :
  cut_at_next_label t = strip (before_stop t).
Proof.
  unfold cut_at_next_label, before_stop, split, search.
  cbn [split_from].
  destruct (search_from true STOP_LABEL_PAT [] t) as [mo|] eqn:S; [|reflexivity].
  destruct (search_from_some _ _ _ _ _ S) as [pre [Ht [Hb [Hm _]]]].
  apply stop_match_shorter in Hm.
  destruct (Nat.ltb_spec (length (m_after (mo_end mo)))
                         (length (mo_start_after mo))); [|lia].
  f_equal. unfold before. rewrite Hb, app_nil_r, rev_involutive.
  rewrite Ht at 1 2. rewrite length_app, Nat.add_sub.
  rewrite firstn_app, Nat.sub_diag, firstn_all. simpl. apply app_nil_r.
Qed.

Lemma strip_before_stop_clean (t : str) :
  search true STOP_LABEL_PAT (strip (before_stop t)) = None.
Proof.
  (* [t = lead ++ W ++ E] with [W] the stripped text and no match starting
     inside [lead ++ W]. *)
  assert (exists pre post,
             t = pre ++ post /\ before_stop t = pre
             /\ (forall p1 p2, pre = p1 ++ p2 -> p2 <> [] ->
                   match_at true STOP_LABEL_PAT (rev p1) (p2 ++ post) = None)
             /\ (post = []
                 \/ xorb (is_word_hd (rev pre)) (is_word_hd post) = true))
    as [pre [post [Ht [Hpre [Hfirst Hpost]]]]].
  { unfold before_stop, search.
    destruct (search_from true STOP_LABEL_PAT [] t) as [mo|] eqn:S.
    - destruct (search_from_some _ _ _ _ _ S) as [pre [Ht [Hb [Hm Hf]]]].
      exists pre, (mo_start_after mo).
      rewrite app_nil_r in Hb.
      split; [exact Ht|]. split.
      + unfold before. rewrite Hb. apply rev_involutive.
      + split.
        * intros p1 p2 Hp Hne. specialize (Hf p1 p2 Hp Hne).
          rewrite app_nil_r in Hf. exact Hf.
        * right. rewrite stop_match_unfold, Hb in Hm.
          destruct (xorb _ _); [reflexivity|discriminate].
    - exists t, []. rewrite app_nil_r.
      split; [reflexivity|]. split; [reflexivity|]. split; [|left; reflexivity].
      intros p1 p2 Hp Hne. rewrite app_nil_r.
      pose proof (search_from_none _ _ _ _ S p1 p2 Hp) as Hn.
      rewrite app_nil_r in Hn. exact Hn. }
  rewrite Hpre.
  destruct (strip_split pre) as [lead [trail [Hs [Fl Ft]]]].
  set (W := strip pre) in *.
  unfold search.
  destruct (search_from true STOP_LABEL_PAT [] W) as [mo|] eqn:S; [|reflexivity].
  exfalso.
  destruct (search_from_some _ _ _ _ _ S) as [w1 [HW [Hb [Hm _]]]].
  rewrite app_nil_r in Hb. rewrite Hb in Hm.
  set (w2 := mo_start_after mo) in *.
  assert (Hedge : is_word_hd (rev W) = true -> is_word_hd (trail ++ post) = false).
  { intros Hlast. rewrite is_word_hd_app. destruct trail as [|c trail].
    - destruct Hpost as [->|X]; [reflexivity|].
      rewrite Hs, app_nil_r, rev_app_distr, is_word_hd_app in X.
      destruct (rev W) eqn:R; [discriminate|].
      rewrite Hlast in X. destruct (is_word_hd post); [discriminate|reflexivity].
    - apply blanks_not_word_hd. exact Ft. }
  assert (Hhit : match_at true STOP_LABEL_PAT (rev w1) w2 <> None)
    by (rewrite Hm; discriminate).
  pose proof (stop_embed W lead (trail ++ post) Fl Hedge w1 w2 HW Hhit) as Hbig.
  assert (Hw2 : w2 <> []).
  { intros Hnil. apply Hhit. rewrite Hnil, stop_match_unfold.
    destruct (xorb (is_word_hd (rev w1)) (is_word_hd []));
      [apply stop_body_needs_char | reflexivity]. }
  apply Hbig.
  rewrite app_assoc.
  apply (Hfirst (lead ++ w1) (w2 ++ trail)).
  - rewrite Hs, HW, <- !app_assoc. reflexivity.
  - destruct w2; [congruence|discriminate].
Qed.

(** C9.  The stop-label cut is idempotent: cutting an already cut text
    changes nothing. *)
Theorem cut_at_next_label_idempotent (s : str) :
  cut_at_next_label (cut_at_next_label s) = cut_at_next_label s.
Proof.
  rewrite (cut_at_next_label_unfold s).
  rewrite cut_at_next_label_unfold.
  unfold before_stop at 1.
  rewrite strip_before_stop_clean. apply strip_idem.
Qed.

(* ================================================================== *)
(** * Part III.  Further properties of the extraction engine           *)
(* ================================================================== *)

(** ** Boxes *)

(** A word box given as (x, y, w, h) with non-negative size comes back from
    [rect_from_bbox] as its corners (x, y, x + w, y + h). *)
Theorem rect_from_bbox_quad_from_xywh (x y w h : Z) :
  0 <= w -> 0 <= h ->
  rect_from_bbox (quad_from_xywh x y w h) = (x, y, x + w, y + h).
Proof.
  intros Hw Hh. unfold rect_from_bbox, quad_from_xywh, min4, max4. simpl.
  f_equal; [f_equal; [f_equal|]|]; lia.
Qed.

Lemma rect_from_bbox_quad_from_xywh_witness :
  rect_from_bbox (quad_from_xywh 100 200 300 40) = (100, 200, 100 + 300, 200 + 40).
Proof.
  apply rect_from_bbox_quad_from_xywh; lia.
Defined.

(** ** Line grouping: what a line is *)

(** The lines before their tokens are sorted: the centers recorded in a line
    are those of its tokens, in the order they joined. *)
Definition line_ok (ln : line) : Prop :=
  l_items ln <> []
  /\ l_y_vals ln = map mid_y (l_items ln)
  /\ l_y ln = median_int (l_y_vals ln).

Lemma place_line_ok (tol : Z) (it : item) (lines : list line) :
  Forall line_ok lines ->
  Forall line_ok (place tol it (mid_y it) lines).
Proof.
  induction 1 as [|ln lines [Hne [Hv Hy]] F IH]; simpl.
  - repeat constructor. discriminate.
  - destruct (Z.abs (l_y ln - mid_y it) <=? tol).
    + constructor; [|exact F]. repeat split; simpl.
      * destruct (l_items ln); discriminate.
      * rewrite map_app, Hv. reflexivity.
    + constructor; [repeat split; assumption | exact IH].
Qed.

Lemma place_length (tol y : Z) (it : item) (lines : list line) :
  (length (place tol it y lines) <= S (length lines))%nat.
Proof.
  induction lines as [|ln lines IH]; simpl; [lia|].
  destruct (Z.abs (l_y ln - y) <=? tol); simpl; lia.
Qed.

Lemma place_all_line_ok (tol : Z) (its : list item) :
  forall lines,
    Forall line_ok lines ->
    Forall line_ok (fold_left (fun ls it => place tol it (mid_y it) ls) its lines)
    /\ (length (fold_left (fun ls it => place tol it (mid_y it) ls) its lines)
        <= length lines + length its)%nat.
Proof.
  induction its as [|it its IH]; intros lines F; simpl.
  - split; [exact F|lia].
  - destruct (IH _ (place_line_ok tol it lines F)) as [G L].
    split; [exact G|].
    pose proof (place_length tol (mid_y it) it lines). lia.
Qed.

(** Every line of [group_by_lines] has at least one token, its center is the
    truncated median of the vertical centers of its tokens, and there are no
    more lines than tokens. *)
Theorem group_by_lines_median (items : list item) (page_h : Z) :
  Forall (fun ln =>
            l_items ln <> []
            /\ Permutation (l_y_vals ln) (map mid_y (l_items ln))
            /\ l_y ln = median_int (l_y_vals ln))
         (group_by_lines items page_h)
  /\ (length (group_by_lines items page_h) <= length items)%nat.
Proof.
  unfold group_by_lines. destruct items as [|it0 items].
  - split; [constructor | simpl; lia].
  - destruct (place_all_line_ok (y_tol_of page_h)
                (sorted_by mid_y (it0 :: items)) [] (Forall_nil _)) as [F L].
    fold (place_all (y_tol_of page_h) (sorted_by mid_y (it0 :: items))) in F, L.
    split.
    + apply Forall_forall. intros ln Hin. apply in_map_iff in Hin.
      destruct Hin as [ln0 [<- Hin]].
      rewrite Forall_forall in F. destruct (F ln0 Hin) as [Hne [Hv Hy]].
      simpl. repeat split.
      * intros E. apply Hne.
        apply Permutation_nil. rewrite <- E.
        apply Permutation_sym, sorted_by_perm.
      * rewrite Hv. apply Permutation_map, sorted_by_perm.
      * exact Hy.
    + rewrite length_map. rewrite sorted_by_length in L. simpl in *. lia.
Qed.

Lemma chain_separated (tol : Z) (lines : list line) :
  forall lo, chain tol lo lines ->
             Forall (fun p => l_y (fst p) + tol < l_y (snd p))
                    (adjacent_pairs lines).
Proof.
  induction lines as [|ln rest IH]; intros lo Hc; [constructor|].
  destruct rest as [|ln2 rest]; [constructor|].
  destruct Hc as [_ [_ [_ Hc']]].
  cbn [adjacent_pairs]. constructor; [|apply (IH _ Hc')].
  simpl. destruct Hc' as [Hne [Hl [Hm _]]].
  rewrite Hm. apply median_int_above; assumption.
Qed.

Lemma adjacent_pairs_map {A B : Type} (f : A -> B) (l : list A) :
  adjacent_pairs (map f l) = map (fun p => (f (fst p), f (snd p))) (adjacent_pairs l).
Proof.
  induction l as [|x l IH]; [reflexivity|].
  destruct l as [|y l]; [reflexivity|].
  cbn [map adjacent_pairs] in *. rewrite IH. reflexivity.
Qed.

(** Two consecutive lines of [group_by_lines] are centered more than the
    vertical tolerance apart. *)
Theorem group_by_lines_separated (items : list item) (page_h : Z) :
  Forall (fun p => l_y (fst p) + y_tol_of page_h < l_y (snd p))
         (adjacent_pairs (group_by_lines items page_h)).
Proof.
  unfold group_by_lines. destruct items as [|it0 items]; [constructor|].
  rewrite adjacent_pairs_map. apply Forall_map. simpl.
  destruct (centers_bounded_below (sorted_by mid_y (it0 :: items))) as [lo F].
  apply (chain_separated _ _ lo).
  unfold place_all.
  apply (place_all_chain _ _ (y_tol_of_nonneg page_h)
           (sorted_by_sorted mid_y (it0 :: items)) [] lo (lo + 1)).
  - exact I.
  - constructor.
  - exact F.
Qed.

(** ** The nearest line *)

Lemma nearest_from_best (am : Z) (lines : list line) :
  forall i idx best j,
    nearest_from am i lines idx best = Some j ->
    exists d,
      d <= best
      /\ Forall (fun ln => d <= Z.abs (l_y ln - am)) lines
      /\ ((idx = Some j /\ d = best)
          \/ (exists ln, nth_error lines (j - i) = Some ln
                         /\ (i <= j)%nat /\ d = Z.abs (l_y ln - am) /\ d < best
                         /\ Forall (fun ln' => d < Z.abs (l_y ln' - am))
                                   (firstn (j - i) lines))).
Proof.
  induction lines as [|ln lines IH]; intros i idx best j H; simpl in H.
  - exists best. split; [lia|]. split; [constructor|]. left. auto.
  - destruct (Z.abs (l_y ln - am) <? best) eqn:E.
    + apply Z.ltb_lt in E.
      destruct (IH _ _ _ _ H) as [d [Hd [F [[Hi ->]|[ln' [Hn [Hij [-> [Hlt Ff]]]]]]]]].
      * injection Hi as <-. exists (Z.abs (l_y ln - am)).
        split; [lia|]. split; [constructor; [lia|exact F]|].
        right. exists ln. rewrite Nat.sub_diag. simpl.
        repeat split; try lia. constructor.
      * exists (Z.abs (l_y ln' - am)). split; [lia|].
        split; [constructor; [lia|exact F]|].
        right. exists ln'.
        replace (j - i)%nat with (S (j - S i)) by lia. simpl.
        repeat split; try assumption; try lia.
        constructor; [lia|exact Ff].
    + apply Z.ltb_ge in E.
      destruct (IH _ _ _ _ H) as [d [Hd [F [[Hi ->]|[ln' [Hn [Hij [-> [Hlt Ff]]]]]]]]].
      * exists best. split; [lia|]. split; [constructor; [lia|exact F]|].
        left. auto.
      * exists (Z.abs (l_y ln' - am)). split; [lia|].
        split; [constructor; [lia|exact F]|].
        right. exists ln'.
        replace (j - i)%nat with (S (j - S i)) by lia. simpl.
        repeat split; try assumption; try lia.
        constructor; [lia|exact Ff].
Qed.

(** The line that [collect_right_bounded], [collect_below_same_column] and
    [yes_no_from_near_text] take for the anchor's line is a line whose center
    is closest to the anchor's, the first such line in output order, and
    closer than 1e9; there is none exactly when every line is 1e9 or more
    away (in particular when there is no line). *)
Theorem nearest_line_closest (am : Z) (lines : list line) :
  match nearest_line am lines with
  | Some i =>
      exists ln,
        nth_error lines i = Some ln
        /\ Z.abs (l_y ln - am) < 1000000000
        /\ Forall (fun ln' => Z.abs (l_y ln - am) <= Z.abs (l_y ln' - am)) lines
        /\ Forall (fun ln' => Z.abs (l_y ln - am) < Z.abs (l_y ln' - am))
                  (firstn i lines)
  | None => Forall (fun ln => 1000000000 <= Z.abs (l_y ln - am)) lines
  end.
Proof.
  unfold nearest_line.
  destruct (nearest_from am 0 lines None 1000000000) as [i|] eqn:E.
  - destruct (nearest_from_best _ _ _ _ _ _ E)
      as [d [Hd [F [[Hi _]|[ln [Hn [_ [-> [Hlt Ff]]]]]]]]]; [discriminate|].
    rewrite Nat.sub_0_r in *. exists ln. repeat split; assumption.
  - assert (G : forall ls i idx best,
               nearest_from am i ls idx best = None ->
               idx = None /\ Forall (fun ln => best <= Z.abs (l_y ln - am)) ls).
    { induction ls as [|ln ls IH]; intros i idx best H; simpl in H.
      - split; [exact H|constructor].
      - destruct (Z.abs (l_y ln - am) <? best) eqn:E1.
        + apply IH in H. destruct H as [H _]. discriminate.
        + apply Z.ltb_ge in E1. apply IH in H. destruct H as [H F].
          split; [exact H|]. constructor; assumption. }
    apply (G _ _ _ _ E).
Qed.

(** ** Anchors: the first match wins *)

Definition is_anchor (patterns : list re) (it : item) : bool :=
  existsb (fun pat => found (search true pat (normalize (text it)))) patterns.

(** [find_anchor_item] returns the first token, in the given order, whose
    normalized text one of the patterns matches, and none exactly when no
    token is matched. *)
Theorem find_anchor_item_first (items : list item) (patterns : list re) :
  match find_anchor_item items patterns with
  | Some it =>
      exists pre post,
        items = pre ++ it :: post
        /\ is_anchor patterns it = true
        /\ Forall (fun it' => is_anchor patterns it' = false) pre
  | None => Forall (fun it' => is_anchor patterns it' = false) items
  end.
Proof.
  induction items as [|it items IH]; simpl.
  - constructor.
  - fold (is_anchor patterns it).
    destruct (is_anchor patterns it) eqn:E.
    + exists [], items. repeat split; [exact E|constructor].
    + destruct (find_anchor_item items patterns) as [a|].
      * destruct IH as [pre [post [-> [Ha F]]]].
        exists (it :: pre), post. repeat split; [exact Ha|].
        constructor; assumption.
      * constructor; assumption.
Qed.

(** ** The stop-label cut leaves no label *)

(** No stop label occurs in the text that [cut_at_next_label] returns. *)
Theorem cut_at_next_label_no_label (t : str) :
  search true STOP_LABEL_PAT (cut_at_next_label t) = None.
Proof.
  rewrite cut_at_next_label_unfold. apply strip_before_stop_clean.
Qed.

(** ** The merged member list *)

Lemma first_seen_fresh (l : list member) :
  forall earlier,
    NoDup (map key_of (first_seen earlier l))
    /\ (forall k, In k (map key_of (first_seen earlier l)) -> ~ In k earlier).
Proof.
  induction l as [|m l IH]; intros earlier; simpl.
  - split; [constructor | intros k []].
  - destruct (IH (earlier ++ [key_of m])) as [N D].
    destruct (key_in (key_of m) earlier) eqn:E; simpl.
    + split; [exact N|]. intros k Hk Hin. apply (D k Hk).
      apply in_or_app. left. exact Hin.
    + split.
      * constructor; [|exact N]. intros Hin. apply (D _ Hin).
        apply in_or_app. right. left. reflexivity.
      * intros k [<-|Hk] Hin.
        -- apply key_in_In in Hin. congruence.
        -- apply (D k Hk). apply in_or_app. left. exact Hin.
Qed.

Lemma first_seen_incl (l : list member) :
  forall earlier m, In m (first_seen earlier l) -> In m l.
Proof.
  induction l as [|x l IH]; intros earlier m H; simpl in H; [exact H|].
  apply in_app_or in H. destruct H as [H|H].
  - destruct (key_in (key_of x) earlier); [destruct H|].
    destruct H as [<-|[]]. left. reflexivity.
  - right. apply (IH _ _ H).
Qed.

Lemma merged_members_eq (pages : list fields) :
  members_of (merge_document pages other_members)
  = first_seen [] (all_members pages).
Proof.
  rewrite merge_document_members. unfold merge_pages.
  apply (merge_pages_members pages merged_init []). reflexivity.
Qed.

(** The merged member list is a union by (name, age): no pair occurs twice
    in it, each of its records is a record of some page, and the pair of
    every record of every page occurs in it. *)
Theorem merged_members_distinct (pages : list fields) :
  NoDup (map key_of (members_of (merge_document pages other_members)))
  /\ (forall m, In m (members_of (merge_document pages other_members)) ->
                In m (all_members pages))
  /\ (forall m, In m (all_members pages) ->
                In (key_of m)
                   (map key_of (members_of (merge_document pages other_members)))).
Proof.
  rewrite merged_members_eq. split; [apply first_seen_fresh|]. split.
  - intros m. apply first_seen_incl.
  - intros m Hm.
    apply (first_seen_keys (all_members pages) [] (key_of m)).
    simpl. apply in_map. exact Hm.
Qed.

(** ** The merged scalar fields *)

Lemma merge_pages_unset (pages : list fields) (k : field) :
  k <> other_members ->
  forall m,
    unset (fold_left merge_page pages m k) = true
    <-> unset (m k) = true /\ Forall (fun f => unset (f k) = true) pages.
Proof.
  intros Hk. induction pages as [|f pages IH]; intros m; simpl.
  - split; [intros H; split; [exact H|constructor] | intros [H _]; exact H].
  - rewrite IH, merge_page_scalar by exact Hk. unfold pick.
    destruct (unset (m k)) eqn:E.
    + split.
      * intros [H F]. split; [reflexivity|]. constructor; assumption.
      * intros [_ F]. inversion F; subst. split; assumption.
    + rewrite E. split; intros [H _]; discriminate.
Qed.

Lemma exclusivity_after_merge_unset (m : fields) (k : field) :
  unset (exclusivity_after_merge m k) = unset (m k).
Proof.
  unfold exclusivity_after_merge.
  destruct (is_VTrue (m scheduled_tribe) && is_VTrue (m otfd))%bool eqn:E;
    [|reflexivity].
  unfold set_field. destruct (field_eqb otfd k) eqn:Ek; [|reflexivity].
  assert (k = otfd) by (destruct k; simpl in Ek; congruence). subst k.
  apply andb_true_iff in E. destruct E as [_ E].
  destruct (m otfd) as [| | [|] | |]; simpl in E; try discriminate. reflexivity.
Qed.

(** A field other than other_members is null or empty in the merged record
    exactly when it is null or empty on every page. *)
Theorem merge_unset_iff (pages : list fields) (k : field) :
  k <> other_members ->
  (unset (merge_document pages k) = true
   <-> Forall (fun f => unset (f k) = true) pages).
Proof.
  intros Hk. unfold merge_document. rewrite exclusivity_after_merge_unset.
  unfold merge_pages. rewrite (merge_pages_unset pages k Hk merged_init).
  rewrite merged_init_unset. tauto.
Qed.

Lemma merge_unset_iff_witness :
  unset (merge_document [merged_init; page_village "x"] district) = true
  <-> Forall (fun f => unset (f district) = true) [merged_init; page_village "x"].
Proof.
  apply merge_unset_iff. discriminate.
Defined.

Lemma last_default {A : Type} (l : list A) (d d' : A) :
  l <> [] -> last l d = last l d'.
Proof.
  induction l as [|x l IH]; intros H; [congruence|].
  destruct l as [|y l]; [reflexivity|].
  change (last (y :: l) d = last (y :: l) d'). apply IH. discriminate.
Qed.

Lemma merge_pages_all_unset (pages : list fields) (k : field) :
  k <> other_members ->
  Forall (fun f => unset (f k) = true) pages ->
  forall m, unset (m k) = true ->
            fold_left merge_page pages m k
            = last (map (fun f => f k) pages) (m k).
Proof.
  intros Hk. induction 1 as [|f pages Hf F IH]; intros m Hm; simpl.
  - reflexivity.
  - rewrite IH.
    + rewrite merge_page_scalar by exact Hk. unfold pick. rewrite Hm.
      destruct pages as [|g pages]; [reflexivity|].
      change (last (map (fun f0 : fields => f0 k) (g :: pages)) (f k)
              = last (map (fun f0 : fields => f0 k) (g :: pages)) (m k)).
      apply last_default. discriminate.
    + rewrite merge_page_scalar by exact Hk. unfold pick. rewrite Hm. exact Hf.
Qed.

Lemma first_seen_all_seen (l : list member) :
  forall earlier,
    (forall m, In m l -> In (key_of m) earlier) ->
    first_seen earlier l = [].
Proof.
  induction l as [|x l IH]; intros earlier H; simpl; [reflexivity|].
  assert (E : key_in (key_of x) earlier = true)
    by (apply key_in_In, H; left; reflexivity).
  rewrite E. simpl. apply IH. intros m Hm.
  apply in_or_app. left. apply H. right. exact Hm.
Qed.

Lemma all_members_app (p1 p2 : list fields) :
  all_members (p1 ++ p2) = all_members p1 ++ all_members p2.
Proof. unfold all_members. apply flat_map_app. Qed.

Lemma merge_pages_twice (pages : list fields) (k : field) :
  merge_pages (pages ++ pages) k = merge_pages pages k.
Proof.
  destruct (field_eqb k other_members) eqn:Ek.
  - assert (k = other_members) by (destruct k; simpl in Ek; congruence).
    subst k.
    assert (M : forall ps, merge_pages ps other_members
                           = VList (first_seen [] (all_members ps))).
    { intros ps. rewrite <- merged_members_eq, merge_document_members.
      unfold merge_pages.
      assert (G : forall qs m, exists l,
                   fold_left merge_page qs m other_members = VList l
                   \/ (qs = [] /\ fold_left merge_page qs m other_members
                                  = m other_members)).
      { induction qs as [|q qs IHq]; intros m; simpl.
        - exists []. right. auto.
        - destruct (IHq (merge_page m q)) as [l [H|[-> H]]].
          + exists l. left. exact H.
          + simpl. eexists. left. reflexivity. }
      destruct (G ps merged_init) as [l [H|[-> H]]].
      - rewrite H. reflexivity.
      - reflexivity. }
    rewrite !M, all_members_app, first_seen_app. simpl.
    rewrite (first_seen_all_seen (all_members pages)
               (map key_of (all_members pages))), app_nil_r; [reflexivity|].
    intros m Hm. apply in_map. exact Hm.
  - assert (Hk : k <> other_members) by (intros ->; discriminate).
    unfold merge_pages. rewrite fold_left_app.
    fold (merge_pages pages).
    destruct (unset (merge_pages pages k)) eqn:U.
    + pose proof U as U'. unfold merge_pages in U'.
      apply (merge_pages_unset pages k Hk merged_init) in U'.
      destruct U' as [_ F].
      rewrite (merge_pages_all_unset pages k Hk F _ U).
      unfold merge_pages.
      rewrite (merge_pages_all_unset pages k Hk F _ (merged_init_unset k)).
      destruct pages as [|p pages]; [reflexivity|].
      apply last_default. discriminate.
    + apply merge_pages_set; assumption.
Qed.

(** Processing the same pages twice over gives the same merged record. *)
Theorem merge_document_repeat (pages : list fields) (k : field) :
  merge_document (pages ++ pages) k = merge_document pages k.
Proof.
  unfold merge_document, exclusivity_after_merge.
  rewrite !merge_pages_twice.
  destruct (_ && _)%bool; [|apply merge_pages_twice].
  unfold set_field. destruct (field_eqb otfd k); [reflexivity|].
  apply merge_pages_twice.
Qed.

(** ** Checkboxes: no filled box, no answer *)

(** When no checkbox within the vertical band of the anchor is filled,
    [bool_from_checkboxes_near] answers null, whatever the labels. *)
Theorem bool_from_checkboxes_near_unfilled (anchor : rect) (m2 : m2_page) :
  Forall (fun b => filled b = false) (close_boxes anchor (checkboxes m2)) ->
  bool_from_checkboxes_near (Some anchor) m2 = None.
Proof.
  intros F. unfold bool_from_checkboxes_near.
  set (close := close_boxes anchor (checkboxes m2)) in *.
  assert (G : Forall (fun b => filled b = false)
                     (if Nat.leb 2 (length close)
                      then sorted_by cb_left_x close else close)).
  { destruct (Nat.leb 2 (length close)); [|exact F].
    apply (Permutation_Forall (sorted_by_perm cb_left_x close) F). }
  destruct (if Nat.leb 2 (length close) then sorted_by cb_left_x close else close)
    as [|b1 [|b2 rest]] eqn:E.
  - reflexivity.
  - apply label_vote_unfilled. exact G.
  - inversion G as [|? ? H1 G']; subst. inversion G' as [|? ? H2 _]; subst.
    rewrite H1, H2. simpl xorb. cbv iota.
    apply label_vote_unfilled. exact G.
Qed.

Lemma bool_from_checkboxes_near_unfilled_witness :
  bool_from_checkboxes_near (Some anchor_box)
    (shapes_of [box_at 450 false "yes"; box_at 520 false "no";
                Checkbox (quad_from_xywh 450 900 30 30) true (1 # 2)
                         (Some (lit "yes"))])
  = None.
Proof.
  apply bool_from_checkboxes_near_unfilled.
  repeat constructor.
Defined.

(** ** Areas are not negative *)







